(** * Click aggregation backend (backend/main.go): model and properties

    A shallow embedding of the Go backend of the kick-football game: the
    in-memory [Storage] (per-country counters, per-IP rate limiter, start
    time, dirty flag), its Redis persistence ([loadFromRedis],
    [saveToRedis]), the rate limiter ([checkRateLimit]), the click handler
    ([handleClick]) and the leaderboard ([getLeaderboard]).

    Go's [int64] is a [Z] with the two's-complement wrap-around written
    out, Go's [map[string]T] is a [gmap string T], [time.Time] is a number
    of nanoseconds, [float64] is the kernel's binary64 float, and the
    package-level variables [storage] and [redisClient] are passed
    explicitly as state. *)

From Stdlib Require Import ZArith String Ascii List Lia Sorted Permutation.
From Stdlib Require Import Floats.
From stdpp Require Import gmap strings list fin_maps sorting.

Local Open Scope Z_scope.

(** ** Go's int64 *)

Module Int64.

Definition min_int : Z := - 2 ^ 63.
Definition max_int : Z := 2 ^ 63 - 1.

(** Membership in the int64 range, as a boolean and as a proposition. *)
Definition in_rangeb (z : Z) : bool := (min_int <=? z) && (z <=? max_int).
Definition in_range (z : Z) : Prop := min_int <= z <= max_int.

(** Two's-complement reduction of a mathematical integer to int64. *)
Definition wrap (z : Z) : Z := (z + 2 ^ 63) mod 2 ^ 64 - 2 ^ 63.

(** [a + b] on int64 operands. *)
Definition add (a b : Z) : Z := wrap (a + b).

End Int64.

(** ** strconv: decimal formatting and parsing of int64

    [strconv.AppendInt(v, 10)] is what go-redis uses to write an int64
    argument; [strconv.ParseInt(s, 10, 64)] is what [loadFromRedis] calls. *)

Module Strconv.

Definition digit_char (d : Z) : ascii := ascii_of_nat (48 + Z.to_nat d).

Definition is_digit (c : ascii) : bool :=
  let n := Z.of_nat (nat_of_ascii c) in (48 <=? n) && (n <=? 57).

Definition digit_val (c : ascii) : Z := Z.of_nat (nat_of_ascii c) - 48.

(** formatBits for base 10: digits are produced from the least
    significant one and written in front of what is already there. A
    uint64 has at most 20 decimal digits, which bounds the loop. *)
Fixpoint format_digits (fuel : nat) (n : Z) (acc : string) : string :=
  match fuel with
  | O => acc
  | S fuel' =>
      let acc' := String (digit_char (n mod 10)) acc in
      if n <? 10 then acc' else format_digits fuel' (n / 10) acc'
  end.

Definition FormatUint (n : Z) : string := format_digits 20 n EmptyString.

(** strconv.FormatInt(v, 10) *)
Definition FormatInt (v : Z) : string :=
  if v <? 0 then String "-"%char (FormatUint (- v)) else FormatUint v.

(** The digit loop of ParseUint for base 10 (no underscores: they are
    accepted for base 0 only). The accumulator is unbounded here; the
    range is checked by the caller, which rejects exactly the inputs on
    which Go's loop reports an overflow. *)
Fixpoint parse_digits (s : string) (n : Z) : option Z :=
  match s with
  | EmptyString => Some n
  | String c s' =>
      if is_digit c then parse_digits s' (n * 10 + digit_val c) else None
  end.

(** ParseUint(s, 10, 64) without the upper bound: [None] is a syntax
    error (empty string or a byte that is not a decimal digit). *)
Definition parse_unsigned (s : string) : option Z :=
  match s with
  | EmptyString => None
  | _ => parse_digits s 0
  end.

(** strconv.ParseInt(s, 10, 64): [Some i] when [err == nil], [None]
    on a syntax error or a range error. *)
Definition ParseInt (s : string) : option Z :=
  match s with
  | EmptyString => None
  | String c s' =>
      let neg := Ascii.eqb c "-" in
      let body := if Ascii.eqb c "+" || neg then s' else s in
      match parse_unsigned body with
      | None => None
      | Some un =>
          let cutoff := 2 ^ 63 in
          if negb neg && (cutoff <=? un) then None
          else if neg && (cutoff <? un) then None
          else Some (if neg then - un else un)
      end
  end.

End Strconv.

(** ** time: instants and durations in nanoseconds *)

Module Time.

Definition Millisecond : Z := 1000000.
Definition Second : Z := 1000000000.

(** time.Unix(sec, 0), for seconds that [time.Time] holds without
    wrapping its internal count of seconds (which starts at year 1):
    those of every date of practical use. *)
Definition Unix (sec : Z) : Z := sec * Second.

(** t.Unix(): whole seconds since the Unix epoch (rounded down). *)
Definition to_Unix (t : Z) : Z := t / Second.

(** t.Sub(u): a Duration, saturated to the int64 range. *)
Definition Sub (t u : Z) : Z :=
  let d := t - u in
  if d <? Int64.min_int then Int64.min_int
  else if Int64.max_int <? d then Int64.max_int
  else d.

(** float64(x) for an int64 [x]. *)
Definition float64_of_int64 (z : Z) : float :=
  if z =? Int64.min_int
  then PrimFloat.opp (PrimFloat.mul (PrimFloat.of_uint63 (Uint63.of_Z (2 ^ 62)))
                                    (PrimFloat.of_uint63 (Uint63.of_Z 2)))
  else if z <? 0 then PrimFloat.opp (PrimFloat.of_uint63 (Uint63.of_Z (- z)))
  else PrimFloat.of_uint63 (Uint63.of_Z z).

(** d.Seconds(): [sec := d / Second; nsec := d % Second;
    float64(sec) + float64(nsec)/1e9], with Go's truncated division. *)
Definition Seconds (d : Z) : float :=
  let sec := Z.quot d Second in
  let nsec := Z.rem d Second in
  PrimFloat.add (float64_of_int64 sec)
                (PrimFloat.div (float64_of_int64 nsec) (float64_of_int64 Second)).

End Time.

(** ** Data structures of main.go *)

Record ClickPayload := {
  payload_Country : string;
  payload_Clicks : Z;
}.

Record CountryStats := {
  Country : string;
  Clicks : Z;
  KPS : float;   (* [json:"kps,omitempty"]: the zero value is left out *)
}.

Definition LeaderboardResponse := list CountryStats.

Record Storage := {
  countryClicks : gmap string Z;
  lastClickIP : gmap string Z;   (* IP -> last click time *)
  startTime : Z;
  dirty : bool;   (* Flag to track if data changed since last save *)
}.

(** The package-level [storage] at process start, [boot] being the value
    of [time.Now()] at initialisation. *)
Definition initial_storage (boot : Z) : Storage :=
  {| countryClicks := ∅; lastClickIP := ∅; startTime := boot; dirty := false |}.

Definition rateLimitTime : Z := 100 * Time.Millisecond.

(** ** The Redis server, as far as main.go uses it

    Two keys: the hash [football:clicks] (an absent key reads as the
    empty hash) and the string [football:start_time]. [writes] counts the
    write commands (HSET, SET) the client has issued. Whether a command
    reaches the server is an input of each operation ([up]). *)

Record Redis := {
  redisKeyClicks : gmap string string;
  redisKeyStartTime : option string;
  writes : nat;
}.

Definition empty_redis : Redis :=
  {| redisKeyClicks := ∅; redisKeyStartTime := None; writes := 0 |}.

Inductive GetReply :=
| GetValue (v : string)
| GetNil          (* redis.Nil: the key does not exist *)
| GetError.

(** HGetAll(ctx, redisKeyClicks).Result(): [None] on an error. *)
Definition HGetAll (up : bool) (r : Redis) : option (gmap string string) :=
  if up then Some (redisKeyClicks r) else None.

(** Get(ctx, redisKeyStartTime).Result() *)
Definition Get (up : bool) (r : Redis) : GetReply :=
  if up then
    match redisKeyStartTime r with
    | Some v => GetValue v
    | None => GetNil
    end
  else GetError.

(** Set(ctx, redisKeyStartTime, value, 0): the int64 value is written in
    decimal. The boolean is [err == nil]. *)
Definition Set_ (up : bool) (value : Z) (r : Redis) : bool * Redis :=
  if up then
    (true, {| redisKeyClicks := redisKeyClicks r;
              redisKeyStartTime := Some (Strconv.FormatInt value);
              writes := S (writes r) |})
  else
    (false, {| redisKeyClicks := redisKeyClicks r;
               redisKeyStartTime := redisKeyStartTime r;
               writes := S (writes r) |}).

(** HSet(ctx, redisKeyClicks, clicksMap): every field of [clicksMap] is
    set to the decimal text of its int64 value; other fields of the hash
    stay. The boolean is [err == nil]. *)
Definition HSet (up : bool) (clicksMap : gmap string Z) (r : Redis) : bool * Redis :=
  if up then
    (true, {| redisKeyClicks := (Strconv.FormatInt <$> clicksMap) ∪ redisKeyClicks r;
              redisKeyStartTime := redisKeyStartTime r;
              writes := S (writes r) |})
  else
    (false, {| redisKeyClicks := redisKeyClicks r;
               redisKeyStartTime := redisKeyStartTime r;
               writes := S (writes r) |}).

Inductive error :=
| ErrLoadClicks    (* "failed to load clicks from Redis" *)
| ErrSaveClicks.   (* "failed to save clicks to Redis" *)

(** ** What the Go runtime and the sort package leave open

    [for k, v := range m] yields every entry of [m] once, in an order the
    language does not fix; [sort.Slice] returns the slice reordered so
    that no element is [less] than one placed before it, and says nothing
    about elements that compare equal. Both are taken as an interface
    with exactly these guarantees. *)

Record StrictWeakOrder {A : Type} (less : A -> A -> bool) : Prop := {
  swo_asym : forall a b, less a b = true -> less b a = false;
  swo_not_less_trans :
    forall a b c, less b a = false -> less c b = false -> less c a = false;
}.

Class Runtime := {
  range_map : gmap string Z -> list (string * Z);
  range_map_perm : forall m, range_map m ≡ₚ map_to_list m;
  sort_Slice : (CountryStats -> CountryStats -> bool) ->
               list CountryStats -> list CountryStats;
  sort_Slice_perm : forall less l, sort_Slice less l ≡ₚ l;
  sort_Slice_sorted :
    forall less l, StrictWeakOrder less ->
      StronglySorted (fun a b => less b a = false) (sort_Slice less l);
}.

(** The insertion sort that [sort.Slice] runs on short slices:
    [for i := a + 1; i < b; i++ { for j := i; j > a && less(j, j-1); j-- { swap(j, j-1) } }].
    [sift less x p] moves [x] down the already sorted prefix, which is
    held last element first. *)
Fixpoint sift {A : Type} (less : A -> A -> bool) (x : A) (p : list A) : list A :=
  match p with
  | [] => [x]
  | y :: p' => if less x y then y :: sift less x p' else x :: p
  end.

Definition insertion_sort {A : Type} (less : A -> A -> bool) (l : list A) : list A :=
  rev (fold_left (fun p x => sift less x p) l []).

(** ** The operations of main.go *)

Section Backend.

Context `{rt : Runtime}.

(** The loop [for country, clicksStr := range clicksData] of
    [loadFromRedis]; the order of the iteration does not matter, as the
    keys are distinct. *)
Definition load_clicks (clicksData : gmap string string)
    (clicks0 : gmap string Z) : gmap string Z :=
  map_fold (fun country clicksStr acc =>
              match Strconv.ParseInt clicksStr with
              | Some clicks => <[country := clicks]> acc
              | None => acc
              end) clicks0 clicksData.

(** Load data from Redis on startup. [up_hgetall], [up_get] and
    [up_set] say whether the three commands get through. *)
Definition loadFromRedis (up_hgetall up_get up_set : bool)
    (s : Storage) (r : Redis) : option error * Storage * Redis :=
  match HGetAll up_hgetall r with
  | None => (Some ErrLoadClicks, s, r)
  | Some clicksData =>
      let clicks1 :=
        if (0 <? size clicksData)%nat
        then load_clicks clicksData (countryClicks s)
        else countryClicks s in
      let '(start1, r1) :=
        match Get up_get r with
        | GetValue startTimeStr =>
            match Strconv.ParseInt startTimeStr with
            | Some startTimeUnix => (Time.Unix startTimeUnix, r)
            | None => (startTime s, r)
            end
        | GetNil =>
            (* First run, save current start time *)
            (startTime s, snd (Set_ up_set (Time.to_Unix (startTime s)) r))
        | GetError => (startTime s, r)
        end in
      (None,
       {| countryClicks := clicks1; lastClickIP := lastClickIP s;
          startTime := start1; dirty := dirty s |},
       r1)
  end.

(** The copy [clicksMap[country] = clicks] made by [saveToRedis]. *)
Definition copy_clicks (clicks : gmap string Z) : gmap string Z :=
  map_fold (fun country n acc => <[country := n]> acc) ∅ clicks.

(** Save data to Redis. *)
Definition saveToRedis (up_hset : bool) (s : Storage) (r : Redis)
    : option error * Storage * Redis :=
  if negb (dirty s) && (size (countryClicks s) =? 0)%nat
  then (None, s, r)   (* Nothing to save *)
  else
    let saved :=
      if (0 <? size (countryClicks s))%nat
      then HSet up_hset (copy_clicks (countryClicks s)) r
      else (true, r) in
    if fst saved
    then (None,
          {| countryClicks := countryClicks s; lastClickIP := lastClickIP s;
             startTime := startTime s; dirty := false |},
          snd saved)
    else (Some ErrSaveClicks, s, snd saved).

(** Rate limiting check; [now] is the value of [time.Now()]. *)
Definition checkRateLimit (now : Z) (ip : string) (s : Storage) : bool * Storage :=
  match lastClickIP s !! ip with
  | Some lastClick =>
      if Time.Sub now lastClick <? rateLimitTime
      then (false, s)
      else (true,
            {| countryClicks := countryClicks s;
               lastClickIP := <[ip := now]> (lastClickIP s);
               startTime := startTime s; dirty := dirty s |})
  | None =>
      (true,
       {| countryClicks := countryClicks s;
          lastClickIP := <[ip := now]> (lastClickIP s);
          startTime := startTime s; dirty := dirty s |})
  end.

(** Increment country clicks: [storage.countryClicks[country] += clicks],
    an absent country reading as 0. *)
Definition incrementClicks (country : string) (clicks : Z) (s : Storage) : Storage :=
  {| countryClicks :=
       <[country := Int64.add (default 0 (countryClicks s !! country)) clicks]>
         (countryClicks s);
     lastClickIP := lastClickIP s;
     startTime := startTime s;
     dirty := true |}.

(** The order of [CountryStats] used for the leaderboard:
    [result[i].Clicks > result[j].Clicks]. *)
Definition more_clicks (a b : CountryStats) : bool := Clicks b <? Clicks a.

(** The loop of [getLeaderboard] over the entries of the map. *)
Definition collect (entries : list (string * Z)) : Z * list CountryStats :=
  fold_left (fun '(totalClicks, result) '(country, clicks) =>
               (Int64.add totalClicks clicks,
                result ++ [{| Country := country; Clicks := clicks;
                              KPS := PrimFloat.zero |}]))
            entries (0, []).

(** Get leaderboard; [now] is the value of [time.Now()] read by
    [time.Since]. *)
Definition getLeaderboard (now : Z) (s : Storage) : LeaderboardResponse :=
  let '(totalClicks, result) := collect (range_map (countryClicks s)) in
  let result := sort_Slice more_clicks result in
  let elapsed := Time.Seconds (Time.Sub now (startTime s)) in
  let kps :=
    if PrimFloat.ltb PrimFloat.zero elapsed
    then PrimFloat.div (Time.float64_of_int64 totalClicks) elapsed
    else PrimFloat.zero in
  let worldwide :=
    {| Country := "Worldwide"; Clicks := totalClicks; KPS := kps |} in
  worldwide :: result.

(** An HTTP request to [/api/click]: the client address found by
    [getClientIP] and the outcome of decoding the JSON body ([None] when
    [Decode] returns an error). *)
Record ClickRequest := {
  clientIP : string;
  body : option ClickPayload;
}.

Definition StatusOK : Z := 200.
Definition StatusBadRequest : Z := 400.
Definition StatusTooManyRequests : Z := 429.

Definition client_error (status : Z) : Prop := 400 <= status < 500.

(** The validation of [handleClick]: the clicks of a request are
    brought into 1..10. *)
Definition validate_Clicks (clicks : Z) : Z :=
  let clicks := if clicks <? 1 then 1 else clicks in
  if 10 <? clicks then 10 else clicks.

Definition validate_Country (country : string) : string :=
  if String.eqb country "" then "Unknown"%string else country.

(** Handler: Submit click. Returns the status code of the response. *)
Definition handleClick (now : Z) (req : ClickRequest) (s : Storage) : Z * Storage :=
  let '(allowed, s1) := checkRateLimit now (clientIP req) s in
  if negb allowed then (StatusTooManyRequests, s1)
  else
    match body req with
    | None => (StatusBadRequest, s1)
    | Some payload =>
        (StatusOK,
         incrementClicks (validate_Country (payload_Country payload))
                         (validate_Clicks (payload_Clicks payload)) s1)
    end.

End Backend.

(** ** The service as a sequence of operations *)

(** The operations that the running service performs on its state: a
    click request, a save (on the timer or at shutdown) and a leaderboard
    request, which only reads. *)
Inductive operation :=
| OpClick (now : Z) (req : ClickRequest)
| OpSave (up_hset : bool)
| OpLeaderboard (now : Z).

(** One operation on the store and on Redis. *)
Definition perform `{rt : Runtime} (op : operation) (s : Storage) (r : Redis)
    : Storage * Redis :=
  match op with
  | OpClick now req => ((handleClick now req s).2, r)
  | OpSave up_hset => ((saveToRedis up_hset s r).1.2, (saveToRedis up_hset s r).2)
  | OpLeaderboard now => let _ := getLeaderboard now s in (s, r)
  end.

(** A sequence of accepted increments, each a country and a delta. *)
Definition apply_increments (ops : list (string * Z)) (s : Storage) : Storage :=
  fold_left (fun s op => incrementClicks op.1 op.2 s) ops s.

(** ** Notions used to state the properties *)

(** The state after an accepted click of [ip] at [now]. *)
Definition record_click (now : Z) (ip : string) (s : Storage) : Storage :=
  {| countryClicks := countryClicks s;
     lastClickIP := <[ip := now]> (lastClickIP s);
     startTime := startTime s; dirty := dirty s |}.

(** The state after a save that went through. *)
Definition clear_dirty (s : Storage) : Storage :=
  {| countryClicks := countryClicks s; lastClickIP := lastClickIP s;
     startTime := startTime s; dirty := false |}.

(** The rule of the rate limiter in the words of its contract: allow
    when no timestamp is recorded for the client or the time elapsed
    since the recorded one is at least the minimum interval. *)
Definition Allow (now : Z) (ip : string) (s : Storage) : bool :=
  match lastClickIP s !! ip with
  | None => true
  | Some lastClick => rateLimitTime <=? now - lastClick
  end.

(** Every counter of the store is an int64. *)
Definition store_int64 (s : Storage) : Prop :=
  forall country clicks,
    countryClicks s !! country = Some clicks -> Int64.in_range clicks.

(** The count of a country, 0 when the store does not hold it. *)
Definition count_of (s : Storage) (country : string) : Z :=
  default 0 (countryClicks s !! country).

(** The sum of the deltas that [ops] holds for [country]. *)
Fixpoint received (country : string) (ops : list (string * Z)) : Z :=
  match ops with
  | [] => 0
  | op :: ops' =>
      (if String.eqb op.1 country then op.2 else 0) + received country ops'
  end.

(** The start time a load adopts from the key [football:start_time]:
    the stored seconds when they parse, else the process's own. *)
Definition adopted_start (marker : option string) (own : Z) : Z :=
  match marker with
  | Some startTimeStr =>
      match Strconv.ParseInt startTimeStr with
      | Some startTimeUnix => Time.Unix startTimeUnix
      | None => own
      end
  | None => own
  end.

(** The sum of a list of integers, and of the counters of a store. *)
Definition sum_list_Z (l : list Z) : Z := foldr Z.add 0 l.

Definition sum_clicks (clicks : gmap string Z) : Z :=
  sum_list_Z (map snd (map_to_list clicks)).

(** The row of a country. *)
Definition country_row (entry : string * Z) : CountryStats :=
  {| Country := entry.1; Clicks := entry.2; KPS := PrimFloat.zero |}.

(** The rate shown in the first row. *)
Definition worldwide_kps (now : Z) (s : Storage) (totalClicks : Z) : float :=
  let elapsed := Time.Seconds (Time.Sub now (startTime s)) in
  if PrimFloat.ltb PrimFloat.zero elapsed
  then PrimFloat.div (Time.float64_of_int64 totalClicks) elapsed
  else PrimFloat.zero.

(** Every count of the store is non-negative. *)
Definition counts_nonneg (s : Storage) : Prop :=
  forall country clicks, countryClicks s !! country = Some clicks -> 0 <= clicks.

(** No country is removed and no count decreases from [s] to [s']. *)
Definition counts_kept (s s' : Storage) : Prop :=
  forall country clicks,
    countryClicks s !! country = Some clicks ->
    exists clicks', countryClicks s' !! country = Some clicks' /\ clicks <= clicks'.

(** The count that a click is added to stays an int64. *)
Definition click_fits (op : operation) (s : Storage) : Prop :=
  match op with
  | OpClick _ req =>
      forall payload, body req = Some payload ->
        count_of s (validate_Country (payload_Country payload))
        + validate_Clicks (payload_Clicks payload) <= Int64.max_int
  | _ => True
  end.

(** A click request of one fixed client, and the countries and counts of
    a leaderboard, for running the model on examples. *)
Definition click (country : string) (clicks : Z) : ClickRequest :=
  {| clientIP := "10.0.0.7";
     body := Some {| payload_Country := country; payload_Clicks := clicks |} |}.

Definition board `{rt : Runtime} (now : Z) (s : Storage) : list (string * Z) :=
  map (fun row => (Country row, Clicks row)) (getLeaderboard now s).

(** ** Six sentences of the specification, as they are worded

    The code does not meet them in this form; each is refuted below on
    a concrete input and proved in an amended form. *)

(** The claim on conservation as it is worded, for the rows of the
    countries: after the increments, the row of [country] shows its
    initial count plus the sum of the deltas it received. *)
Definition row_shows_exact_sum `{rt : Runtime}
    (ops : list (string * Z)) (s : Storage) (country : string) (now : Z) : Prop :=
  forall row,
    row ∈ tail (getLeaderboard now (apply_increments ops s)) ->
    Country row = country ->
    Clicks row = count_of s country + received country ops.

(** The claim on malformed requests as it is worded: a request whose
    body does not parse gets a client error and changes neither the
    counters, nor the dirty flag, nor the rate limiter's timestamps. *)
Definition malformed_request_changes_nothing
    (now : Z) (req : ClickRequest) (s : Storage) : Prop :=
  body req = None ->
  client_error (handleClick now req s).1 /\
  countryClicks (handleClick now req s).2 = countryClicks s /\
  dirty (handleClick now req s).2 = dirty s /\
  lastClickIP (handleClick now req s).2 = lastClickIP s.

(** The claim on two saves in a row as it is worded: after a first save
    that succeeds, the second one issues no write, so that the two
    together issue at most one. *)
Definition second_save_is_noop (s : Storage) (r : Redis) : Prop :=
  let first := saveToRedis true s r in
  let second := saveToRedis true first.1.2 first.2 in
  first.1.1 = None ->
  writes second.2 = writes first.2 /\ (writes second.2 <= S (writes r))%nat.

(** The claim on the round trip as it is worded: after a save that
    succeeds, a load into the empty store of a new process gives back the
    counter mapping and the start time the store had before the save. *)
Definition save_load_reproduces (s : Storage) (r : Redis) (boot : Z) : Prop :=
  let saved := saveToRedis true s r in
  let loaded := loadFromRedis true true true (initial_storage boot) saved.2 in
  saved.1.1 = None ->
  countryClicks loaded.1.2 = countryClicks s /\
  startTime loaded.1.2 = startTime s.

(** The claim on a failed save as it is worded: when a save issues its
    write and the write fails, the dirty flag is true afterwards and the
    counter mapping is unchanged. *)
Definition failed_save_leaves_dirty (s : Storage) (r : Redis) : Prop :=
  let failed := saveToRedis false s r in
  writes failed.2 = S (writes r) ->
  failed.1.1 = Some ErrSaveClicks ->
  dirty failed.1.2 = true /\ countryClicks failed.1.2 = countryClicks s.

(** The claim on the counters as it is worded: with non-negative counts
    to start from, every operation leaves them non-negative and neither
    removes nor decreases any. *)
Definition counts_never_decrease `{rt : Runtime}
    (op : operation) (s : Storage) (r : Redis) : Prop :=
  counts_nonneg s ->
  counts_nonneg (perform op s r).1 /\
  counts_kept s (perform op s r).1.

(** ** The rest of main.go: configuration, client address, startup *)

(** os.Getenv: the value of the variable, empty when it is not set. *)
Definition Getenv (env : gmap string string) (key : string) : string :=
  default EmptyString (env !! key).

Definition getEnv (env : gmap string string) (key defaultValue : string) : string :=
  let value := Getenv env key in
  if negb (String.eqb value "") then value else defaultValue.

(** strconv.Atoi on a platform whose [int] has 64 bits: the integers it
    accepts and their values are those of ParseInt(s, 10, 64). *)
Definition Atoi (s : string) : option Z := Strconv.ParseInt s.

Definition getEnvInt (env : gmap string string) (key : string) (defaultValue : Z) : Z :=
  let value := Getenv env key in
  if negb (String.eqb value "") then
    match Atoi value with
    | Some intVal => intVal
    | None => defaultValue
    end
  else defaultValue.

(** What [getClientIP] reads of a request; [Header.Get] gives the empty
    string for a header that is absent. *)
Record Request := {
  XForwardedFor : string;
  XRealIP : string;
  RemoteAddr : string;
}.

(** strings.Split(s, sep)[0] for a one-byte [sep]: what stands before
    the first [sep], all of [s] when there is none. *)
Fixpoint before_sep (sep : ascii) (s : string) : string :=
  match s with
  | EmptyString => EmptyString
  | String c s' => if Ascii.eqb c sep then EmptyString else String c (before_sep sep s')
  end.

(** The bytes that strings.TrimSpace removes on its ASCII path:
    tab, line feed, vertical tab, form feed, carriage return, space. *)
Definition asciiSpace (c : ascii) : bool :=
  let n := nat_of_ascii c in
  ((9 <=? n)%nat && (n <=? 13)%nat) || (n =? 32)%nat.

(** A byte outside ASCII ([c >= utf8.RuneSelf]). *)
Definition RuneSelf (c : ascii) : bool := (128 <=? nat_of_ascii c)%nat.

(** Where strings.TrimSpace meets a byte outside ASCII it hands over to
    [TrimFunc(_, unicode.IsSpace)] or [TrimRightFunc(_, unicode.IsSpace)],
    which decode UTF-8; these two are taken as given. *)
Class UnicodeTrim := {
  TrimFunc_IsSpace : string -> string;
  TrimRightFunc_IsSpace : string -> string;
}.

(** The scan of TrimSpace from the end of the string. *)
Inductive trimmed_right :=
| AllSpace                       (* only ASCII spaces were seen *)
| Kept (s : string)              (* stopped at an ASCII byte that is no space *)
| NonASCII (s : string).         (* stopped at a byte outside ASCII *)

Fixpoint trim_right (s : string) : trimmed_right :=
  match s with
  | EmptyString => AllSpace
  | String c s' =>
      match trim_right s' with
      | AllSpace =>
          if RuneSelf c then NonASCII (String c EmptyString)
          else if asciiSpace c then AllSpace
          else Kept (String c EmptyString)
      | Kept t => Kept (String c t)
      | NonASCII t => NonASCII (String c t)
      end
  end.

(** strings.TrimSpace *)
Fixpoint TrimSpace `{ut : UnicodeTrim} (s : string) : string :=
  match s with
  | EmptyString => EmptyString
  | String c s' =>
      if RuneSelf c then TrimFunc_IsSpace s
      else if asciiSpace c then TrimSpace s'
      else
        match trim_right s with
        | AllSpace => EmptyString
        | Kept t => t
        | NonASCII t => TrimRightFunc_IsSpace t
        end
  end.

(** Get client IP *)
Definition getClientIP `{ut : UnicodeTrim} (r : Request) : string :=
  (* Check X-Forwarded-For header (for proxies) *)
  let forwarded := XForwardedFor r in
  if negb (String.eqb forwarded "") then TrimSpace (before_sep "," forwarded)
  else
    (* Check X-Real-IP header *)
    let realIP := XRealIP r in
    if negb (String.eqb realIP "") then realIP
    else
      (* Fall back to RemoteAddr *)
      before_sep ":" (RemoteAddr r).

(** Whether every byte of a string passes a test. *)
Fixpoint all_bytes (p : ascii -> bool) (s : string) : bool :=
  match s with
  | EmptyString => true
  | String c s' => p c && all_bytes p s'
  end.

(** A byte of a plain token, as in an address: ASCII, neither a space
    nor a comma. *)
Definition plain (c : ascii) : bool :=
  negb (RuneSelf c) && negb (asciiSpace c) && negb (Ascii.eqb c ",").

(** The first and the last byte of a string. *)
Definition first_byte (s : string) : option ascii :=
  match s with
  | EmptyString => None
  | String c _ => Some c
  end.

Fixpoint last_byte (s : string) : option ascii :=
  match s with
  | EmptyString => None
  | String c s' =>
      match last_byte s' with
      | Some z => Some z
      | None => Some c
      end
  end.

(** A string that is empty or neither begins nor ends with one of the
    ASCII spaces: what is left of a string between its leading and its
    trailing ASCII spaces. *)
Definition bounded (core : string) : bool :=
  match first_byte core, last_byte core with
  | Some a, Some z => negb (asciiSpace a) && negb (asciiSpace z)
  | _, _ => true
  end.

(** What trimming makes of such a [core] followed by the ASCII spaces
    [trail]: the core itself when it begins and ends within ASCII, and
    what the Unicode functions of the library make of it otherwise. *)
Definition trimmed `{ut : UnicodeTrim} (core trail : string) : string :=
  match first_byte core, last_byte core with
  | Some a, Some z =>
      if RuneSelf a then TrimFunc_IsSpace (String.append core trail)
      else if RuneSelf z then TrimRightFunc_IsSpace core
      else core
  | _, _ => EmptyString
  end.

(** The digit 1, [n] times. *)
Fixpoint ones (n : nat) : string :=
  match n with
  | O => EmptyString
  | S n' => String "1" (ones n')
  end.

(** [handleClick] on a request as it arrives: the client address is
    found by [getClientIP], [decoded] is the outcome of decoding the
    body. *)
Definition handleClick_from `{ut : UnicodeTrim}
    (now : Z) (r : Request) (decoded : option ClickPayload) (s : Storage) : Z * Storage :=
  handleClick now {| clientIP := getClientIP r; body := decoded |} s.

(** The start of [main]: without Redis ([up_ping] false) the service
    runs in memory only, with neither load nor periodic save; with Redis
    it loads, goes on even when the load fails, and saves from then on.
    The boolean says whether saves take place. *)
Definition startup (up_ping up_hgetall up_get up_set : bool) (boot : Z) (r : Redis)
    : Storage * Redis * bool :=
  if up_ping then
    let out := loadFromRedis up_hgetall up_get up_set (initial_storage boot) r in
    (out.1.2, out.2, true)
  else (initial_storage boot, r, false).

(** ** The running service as a sequence of critical sections

    Every access to [storage] is made under [storage.mu]: the rate-limiter
    check and the increment of a click request are two sections on their
    own, a save is one, and so is a leaderboard request. Whatever the
    goroutines do, the state goes through a sequence of such sections. *)

Inductive critical :=
| DoCheckRateLimit (now : Z) (ip : string)
| DoIncrement (country : string) (clicks : Z)
| DoSave (up_hset : bool)
| DoLeaderboard (now : Z).

Definition enter `{rt : Runtime} (c : critical) (w : Storage * Redis) : Storage * Redis :=
  match c with
  | DoCheckRateLimit now ip => ((checkRateLimit now ip w.1).2, w.2)
  | DoIncrement country clicks => (incrementClicks country clicks w.1, w.2)
  | DoSave up_hset => ((saveToRedis up_hset w.1 w.2).1.2, (saveToRedis up_hset w.1 w.2).2)
  | DoLeaderboard now => let _ := getLeaderboard now w.1 in w
  end.

Definition run `{rt : Runtime} (cs : list critical) (w : Storage * Redis) : Storage * Redis :=
  fold_left (fun w c => enter c w) cs w.

(** The sections of one operation of the service, from the state in
    which it starts. *)
Definition sections_of (op : operation) (s : Storage) : list critical :=
  match op with
  | OpClick now req =>
      DoCheckRateLimit now (clientIP req) ::
      (if (checkRateLimit now (clientIP req) s).1 then
         match body req with
         | Some payload =>
             [DoIncrement (validate_Country (payload_Country payload))
                          (validate_Clicks (payload_Clicks payload))]
         | None => []
         end
       else [])
  | OpSave up_hset => [DoSave up_hset]
  | OpLeaderboard now => [DoLeaderboard now]
  end.

(** A save that reaches Redis. *)
Definition is_save_through (c : critical) : bool :=
  match c with
  | DoSave true => true
  | _ => false
  end.

(** The counters that a load of a new process would find in Redis. *)
Definition durable (r : Redis) : gmap string Z :=
  omap Strconv.ParseInt (redisKeyClicks r).

(** What holds of the store and of Redis while the service runs. *)
Definition consistent (s : Storage) (r : Redis) : Prop :=
  store_int64 s /\
  (dirty s = true -> countryClicks s <> ∅) /\
  dom (durable r) ⊆ dom (countryClicks s).

(** The times of the click requests of [ip], among [reqs] served one
    after the other from [s], that the rate limiter let through. *)
Fixpoint let_through (ip : string) (reqs : list (Z * ClickRequest)) (s : Storage)
    : list Z :=
  match reqs with
  | [] => []
  | (now, req) :: reqs' =>
      let out := handleClick now req s in
      (if String.eqb (clientIP req) ip && negb (out.1 =? StatusTooManyRequests)
       then [now] else [])
      ++ let_through ip reqs' out.2
  end.

(** ** The leaderboard in the browser (Leaderboard.jsx)

    [fetchLeaderboard] splits the array it receives:
    [data.find(item => item.country === 'Worldwide')] and
    [data.filter(item => item.country !== 'Worldwide')]. *)

Definition is_Worldwide (item : CountryStats) : bool :=
  String.eqb (Country item) "Worldwide".

Definition worldwideData (data : list CountryStats) : option CountryStats :=
  List.find is_Worldwide data.

Definition leaderboardData (data : list CountryStats) : list CountryStats :=
  List.filter (fun item => negb (is_Worldwide item)) data.

(** * Properties *)

(** ** The decimal functions on examples *)

Example FormatInt_examples :
  Strconv.FormatInt 0 = "0"%string /\
  Strconv.FormatInt 5 = "5"%string /\
  Strconv.FormatInt (-42) = "-42"%string /\
  Strconv.FormatInt Int64.max_int = "9223372036854775807"%string /\
  Strconv.FormatInt Int64.min_int = "-9223372036854775808"%string.
Proof. repeat split; vm_compute; reflexivity. Qed.

Example ParseInt_examples :
  Strconv.ParseInt "12" = Some 12 /\
  Strconv.ParseInt "+12" = Some 12 /\
  Strconv.ParseInt "-0012" = Some (-12) /\
  Strconv.ParseInt "" = None /\
  Strconv.ParseInt "-" = None /\
  Strconv.ParseInt "1_000" = None /\
  Strconv.ParseInt "12a" = None /\
  Strconv.ParseInt "9223372036854775807" = Some Int64.max_int /\
  Strconv.ParseInt "9223372036854775808" = None /\
  Strconv.ParseInt "-9223372036854775808" = Some Int64.min_int /\
  Strconv.ParseInt "-9223372036854775809" = None.
Proof. repeat split; vm_compute; reflexivity. Qed.

(** ** int64 arithmetic *)

(** Spell out the bounds of int64 wherever they occur. *)
Ltac int64_bounds :=
  unfold Int64.in_range, Int64.in_rangeb, Int64.min_int, Int64.max_int in *.

Lemma wrap_in_range z : Int64.in_range (Int64.wrap z).
Proof.
  unfold Int64.wrap. int64_bounds.
  pose proof (Z.mod_pos_bound (z + 2 ^ 63) (2 ^ 64) ltac:(lia)). lia.
Qed.

Lemma wrap_id z : Int64.in_range z -> Int64.wrap z = z.
Proof.
  unfold Int64.wrap. int64_bounds. intros Hz.
  rewrite Z.mod_small; lia.
Qed.

Lemma wrap_add_l a b : Int64.wrap (Int64.wrap a + b) = Int64.wrap (a + b).
Proof.
  unfold Int64.wrap. f_equal.
  replace ((a + 2 ^ 63) mod 2 ^ 64 - 2 ^ 63 + b + 2 ^ 63)
    with ((a + 2 ^ 63) mod 2 ^ 64 + b) by lia.
  rewrite Zplus_mod_idemp_l. f_equal. lia.
Qed.

Lemma wrap_add_r a b : Int64.wrap (a + Int64.wrap b) = Int64.wrap (a + b).
Proof. rewrite (Z.add_comm a), wrap_add_l. f_equal. lia. Qed.

Lemma in_rangeb_spec z : Int64.in_rangeb z = true <-> Int64.in_range z.
Proof. int64_bounds. lia. Qed.

(** ** Decimal text of an int64 and back *)

Lemma is_digit_digit_char d :
  0 <= d < 10 ->
  Strconv.is_digit (Strconv.digit_char d) = true /\
  Strconv.digit_val (Strconv.digit_char d) = d.
Proof.
  intros Hd.
  assert (Hcases : d = 0 \/ d = 1 \/ d = 2 \/ d = 3 \/ d = 4 \/
                   d = 5 \/ d = 6 \/ d = 7 \/ d = 8 \/ d = 9) by lia.
  repeat (destruct Hcases as [-> | Hcases]; [split; reflexivity |]).
  subst d. split; reflexivity.
Qed.

(** Parsing what [format_digits] wrote in front of [acc] amounts to
    parsing [acc] with the number already read. *)
Lemma parse_format_digits fuel :
  forall n acc, 0 <= n < 10 ^ Z.of_nat fuel ->
    Strconv.parse_digits (Strconv.format_digits fuel n acc) 0 =
    Strconv.parse_digits acc n.
Proof.
  induction fuel as [| fuel IH]; intros n acc Hn.
  - simpl in *. replace n with 0 by lia. reflexivity.
  - cbn [Strconv.format_digits].
    destruct (is_digit_digit_char (n mod 10)) as [Hd Hv].
    { apply Z.mod_pos_bound. lia. }
    destruct (n <? 10) eqn:Hlt.
    + apply Z.ltb_lt in Hlt. rewrite Z.mod_small in * by lia.
      cbn [Strconv.parse_digits]. rewrite Hd, Hv. f_equal.
    + apply Z.ltb_ge in Hlt. rewrite IH.
      * cbn [Strconv.parse_digits]. rewrite Hd, Hv. f_equal.
        pose proof (Z.div_mod n 10 ltac:(lia)). lia.
      * rewrite Nat2Z.inj_succ, Z.pow_succ_r in Hn by lia.
        split; [apply Z.div_pos; lia |].
        apply Z.div_lt_upper_bound; lia.
Qed.

Lemma format_digits_nonempty fuel n acc :
  Strconv.format_digits (S fuel) n acc <> EmptyString.
Proof.
  revert n acc. induction fuel as [| fuel IH]; intros n acc; cbn.
  - destruct (n <? 10); discriminate.
  - destruct (n <? 10); [discriminate |]. apply (IH (n / 10)).
Qed.

Lemma format_digits_head_digit fuel n acc c s :
  0 <= n ->
  Strconv.format_digits (S fuel) n acc = String c s -> Strconv.is_digit c = true.
Proof.
  revert n acc. induction fuel as [| fuel IH]; intros n acc Hn; cbn.
  - destruct (n <? 10); intros [= <- _];
      apply is_digit_digit_char, Z.mod_pos_bound; lia.
  - destruct (n <? 10).
    + intros [= <- _]. apply is_digit_digit_char, Z.mod_pos_bound; lia.
    + apply IH. apply Z.div_pos; lia.
Qed.

Lemma parse_unsigned_FormatUint n :
  0 <= n < 2 ^ 64 -> Strconv.parse_unsigned (Strconv.FormatUint n) = Some n.
Proof.
  intros Hn. unfold Strconv.parse_unsigned, Strconv.FormatUint.
  destruct (Strconv.format_digits 20 n EmptyString) eqn:E.
  - exfalso. revert E. apply format_digits_nonempty.
  - rewrite <- E. rewrite parse_format_digits; [reflexivity |].
    change (10 ^ Z.of_nat 20) with 100000000000000000000. lia.
Qed.

Lemma digit_not_sign c :
  Strconv.is_digit c = true -> Ascii.eqb c "+" = false /\ Ascii.eqb c "-" = false.
Proof.
  intros Hc. split; apply Ascii.eqb_neq; intros ->; discriminate Hc.
Qed.

(** The decimal text written for an int64 reads back as the same int64. *)
Lemma ParseInt_FormatInt z :
  Int64.in_range z -> Strconv.ParseInt (Strconv.FormatInt z) = Some z.
Proof.
  unfold Int64.in_range, Int64.min_int, Int64.max_int. intros Hz.
  unfold Strconv.FormatInt. destruct (z <? 0) eqn:Hneg.
  - apply Z.ltb_lt in Hneg. cbn [Strconv.ParseInt].
    change (Ascii.eqb "-" "-") with true. change (Ascii.eqb "-" "+") with false.
    cbn [orb]. rewrite parse_unsigned_FormatUint by lia. cbn [negb andb].
    destruct (2 ^ 63 <? - z) eqn:Hc; [apply Z.ltb_lt in Hc; lia |].
    f_equal. lia.
  - apply Z.ltb_ge in Hneg. unfold Strconv.ParseInt.
    destruct (Strconv.FormatUint z) as [| c s] eqn:E.
    + exfalso. revert E. apply format_digits_nonempty.
    + destruct (digit_not_sign c) as [-> ->].
      { eapply format_digits_head_digit; [| exact E]. lia. }
      cbn [orb]. rewrite <- E, parse_unsigned_FormatUint by lia. cbn [negb andb].
      destruct (2 ^ 63 <=? z) eqn:Hc; [apply Z.leb_le in Hc; lia | reflexivity].
Qed.

Lemma parse_digits_nonneg s :
  forall n r, 0 <= n -> Strconv.parse_digits s n = Some r -> 0 <= r.
Proof.
  induction s as [| c s IH]; intros n r Hn; cbn.
  - intros [= <-]. exact Hn.
  - destruct (Strconv.is_digit c) eqn:Hc; [| discriminate].
    apply IH. unfold Strconv.is_digit, Strconv.digit_val in *. lia.
Qed.

(** Whatever [ParseInt] accepts is an int64. *)
Lemma ParseInt_in_range s z : Strconv.ParseInt s = Some z -> Int64.in_range z.
Proof.
  unfold Strconv.ParseInt. destruct s as [| c s]; [discriminate |].
  destruct (Strconv.parse_unsigned _) as [un |] eqn:Hun; [| discriminate].
  assert (0 <= un) as Hnonneg.
  { unfold Strconv.parse_unsigned in Hun.
    destruct (if (_ : bool) then s else String c s); [discriminate |].
    eapply parse_digits_nonneg; [| exact Hun]. lia. }
  unfold Int64.in_range, Int64.min_int, Int64.max_int.
  destruct (Ascii.eqb c "-"); cbn [negb andb].
  - destruct (2 ^ 63 <? un) eqn:Hc; [discriminate |].
    intros [= <-]. apply Z.ltb_ge in Hc. lia.
  - destruct (2 ^ 63 <=? un) eqn:Hc; [discriminate |].
    intros [= <-]. apply Z.leb_gt in Hc. lia.
Qed.

(** ** The insertion sort meets the contract of sort.Slice *)

Section InsertionSort.

Context {A : Type} (less : A -> A -> bool).

(** [a] may stand after [b]: [a] is not less than [b]. *)
Let after (a b : A) : Prop := less a b = false.

Lemma sift_perm x p : sift less x p ≡ₚ x :: p.
Proof.
  induction p as [| y p IH]; cbn; [reflexivity |].
  destruct (less x y); [| reflexivity].
  rewrite IH. apply Permutation_swap.
Qed.

Lemma fold_sift_perm l : forall p, fold_left (fun p x => sift less x p) l p ≡ₚ l ++ p.
Proof.
  induction l as [| x l IH]; intros p; cbn; [reflexivity |].
  rewrite IH, sift_perm. symmetry. apply Permutation_middle.
Qed.

Lemma insertion_sort_perm l : insertion_sort less l ≡ₚ l.
Proof.
  unfold insertion_sort. rewrite <- Permutation_rev, fold_sift_perm.
  now rewrite app_nil_r.
Qed.

Hypothesis Hless : StrictWeakOrder less.

Lemma sift_sorted x p :
  StronglySorted after p -> StronglySorted after (sift less x p).
Proof.
  induction 1 as [| y p Hp IH Hy]; cbn.
  - repeat constructor.
  - destruct (less x y) eqn:Hxy.
    + constructor; [exact IH |].
      rewrite sift_perm. constructor; [| exact Hy].
      apply (swo_asym _ Hless), Hxy.
    + constructor; [constructor; assumption |].
      constructor; [exact Hxy |].
      eapply Forall_impl; [exact Hy |]. intros z Hyz.
      exact (swo_not_less_trans _ Hless z y x Hyz Hxy).
Qed.

Lemma fold_sift_sorted l :
  forall p, StronglySorted after p ->
    StronglySorted after (fold_left (fun p x => sift less x p) l p).
Proof.
  induction l as [| x l IH]; intros p Hp; cbn; [exact Hp |].
  apply IH, sift_sorted, Hp.
Qed.

Lemma StronglySorted_rev (R : A -> A -> Prop) l :
  StronglySorted R l -> StronglySorted (fun a b => R b a) (rev l).
Proof.
  induction 1 as [| x l Hl IH Hx]; cbn; [constructor |].
  apply StronglySorted_app_2; [| exact IH | repeat constructor].
  intros a b Ha Hb. apply list_elem_of_singleton in Hb as ->.
  rewrite Forall_forall in Hx. apply Hx.
  apply list_elem_of_In, in_rev, list_elem_of_In, Ha.
Qed.

Lemma insertion_sort_sorted l :
  StronglySorted (fun a b => less b a = false) (insertion_sort less l).
Proof.
  unfold insertion_sort.
  apply (StronglySorted_rev after), fold_sift_sorted. constructor.
Qed.

End InsertionSort.

(** [range] in the order of [map_to_list] and [sort.Slice] as the
    insertion sort: one runtime among those allowed, used to run the
    model. *)
#[export] Instance reference_runtime : Runtime := {|
  range_map := map_to_list;
  range_map_perm := fun m => Permutation_refl (map_to_list m);
  sort_Slice := insertion_sort;
  sort_Slice_perm := insertion_sort_perm;
  sort_Slice_sorted := fun less l Hless => insertion_sort_sorted less Hless l;
|}.

Lemma more_clicks_order : StrictWeakOrder more_clicks.
Proof. split; unfold more_clicks; intros; lia. Qed.

(** ** The two loops over maps *)

Lemma load_clicks_union clicksData clicks0 :
  load_clicks clicksData clicks0 = omap Strconv.ParseInt clicksData ∪ clicks0.
Proof.
  unfold load_clicks.
  apply (map_fold_weak_ind
           (fun acc m => acc = omap Strconv.ParseInt m ∪ clicks0)).
  - now rewrite omap_empty, (left_id_L ∅ (∪)).
  - intros country clicksStr m acc Hfresh ->.
    destruct (Strconv.ParseInt clicksStr) as [clicks |] eqn:Hparse.
    + now rewrite (omap_insert_Some _ _ _ _ _ Hparse), insert_union_l.
    + rewrite (omap_insert_None _ _ _ _ Hparse), delete_id; [reflexivity |].
      now rewrite lookup_omap, Hfresh.
Qed.

Lemma load_clicks_lookup clicksData clicks0 country :
  load_clicks clicksData clicks0 !! country =
  match clicksData !! country ≫= Strconv.ParseInt with
  | Some clicks => Some clicks
  | None => clicks0 !! country
  end.
Proof.
  rewrite load_clicks_union, lookup_union, lookup_omap.
  destruct (clicksData !! country ≫= Strconv.ParseInt) as [clicks |];
    destruct (clicks0 !! country); reflexivity.
Qed.

Lemma copy_clicks_id clicks : copy_clicks clicks = clicks.
Proof.
  unfold copy_clicks.
  apply (map_fold_weak_ind (fun acc m => acc = m)); [reflexivity |].
  now intros country n m acc _ ->.
Qed.

Lemma size_pos_nonempty {V} (m : gmap string V) :
  (0 <? size m)%nat = false -> m = ∅.
Proof. intros H. apply map_size_empty_inv. apply Nat.ltb_ge in H. lia. Qed.

(** ** Loading *)

(** C10. Whatever the hash [football:clicks] holds, a load into the
    empty store of a starting process succeeds as soon as the hash could
    be read, and the store then holds exactly the countries whose field
    parses as a base-10 int64, with the parsed value; a field that does
    not parse leaves its country absent. *)
Theorem loadFromRedis_keeps_parsable_entries
    (boot : Z) (r : Redis) (up_get up_set : bool) :
  let out := loadFromRedis true up_get up_set (initial_storage boot) r in
  out.1.1 = None /\
  (forall country,
     countryClicks out.1.2 !! country =
     redisKeyClicks r !! country ≫= Strconv.ParseInt) /\
  (forall country clicksStr,
     redisKeyClicks r !! country = Some clicksStr ->
     Strconv.ParseInt clicksStr = None ->
     countryClicks out.1.2 !! country = None).
Proof.
  assert (Hlookup : forall country,
    countryClicks (loadFromRedis true up_get up_set (initial_storage boot) r).1.2
      !! country = redisKeyClicks r !! country ≫= Strconv.ParseInt).
  { intros country. unfold loadFromRedis, HGetAll.
    destruct (match Get up_get r with GetValue _ => _ | _ => _ end) as [start1 r1].
    cbn [fst snd countryClicks initial_storage].
    destruct (0 <? size (redisKeyClicks r))%nat eqn:Hsize.
    - rewrite load_clicks_lookup, lookup_empty.
      now destruct (redisKeyClicks r !! country ≫= Strconv.ParseInt).
    - now rewrite (size_pos_nonempty _ Hsize), !lookup_empty. }
  cbn zeta. split; [| split].
  - unfold loadFromRedis, HGetAll.
    now destruct (match Get up_get r with GetValue _ => _ | _ => _ end).
  - exact Hlookup.
  - intros country clicksStr Hfield Hparse. now rewrite Hlookup, Hfield.
Qed.

Lemma loadFromRedis_keeps_parsable_entries_witness :
  let r := {| redisKeyClicks := {[ "Brazil" := "5"; "Peru" := "2x" ]}%string;
              redisKeyStartTime := None; writes := 0 |} in
  let out := loadFromRedis true true true (initial_storage 0) r in
  out.1.1 = None /\
  countryClicks out.1.2 !! "Brazil"%string = Some 5 /\
  countryClicks out.1.2 !! "Peru"%string = None.
Proof.
  intros r out. subst out.
  destruct (loadFromRedis_keeps_parsable_entries 0 r true true)
    as (Hok & Hparsed & Hskipped).
  split; [exact Hok | split].
  - rewrite (Hparsed "Brazil"%string). reflexivity.
  - apply (Hskipped "Peru"%string "2x"%string); reflexivity.
Defined.

(** ** The rate limiter *)

Lemma Sub_lt_rateLimitTime now lastClick :
  (Time.Sub now lastClick <? rateLimitTime) = negb (rateLimitTime <=? now - lastClick).
Proof.
  unfold Time.Sub, rateLimitTime, Time.Millisecond, Int64.min_int, Int64.max_int.
  cbn zeta.
  destruct (now - lastClick <? - 2 ^ 63) eqn:Hmin;
    [| destruct (2 ^ 63 - 1 <? now - lastClick) eqn:Hmax]; lia.
Qed.

Lemma checkRateLimit_Allow now ip s :
  checkRateLimit now ip s =
  if Allow now ip s then (true, record_click now ip s) else (false, s).
Proof.
  unfold checkRateLimit, Allow.
  destruct (lastClickIP s !! ip) as [lastClick |]; [| reflexivity].
  rewrite Sub_lt_rateLimitTime.
  now destruct (rateLimitTime <=? now - lastClick).
Qed.

(** C6. [checkRateLimit] allows a client, and records [now] as its last
    accepted time, exactly when no time is recorded for it or at least
    [rateLimitTime] has elapsed since the recorded one; otherwise it
    rejects and leaves the state as it is. Hence a client accepted at
    [now] is rejected at every [later] before [now + rateLimitTime] and
    accepted again from [now + rateLimitTime] on. *)
Theorem checkRateLimit_contract (now : Z) (ip : string) (s : Storage) :
  checkRateLimit now ip s =
    (if Allow now ip s then (true, record_click now ip s) else (false, s)) /\
  forall later,
    (checkRateLimit now ip s).1 = true ->
    (later < now + rateLimitTime ->
       checkRateLimit later ip (checkRateLimit now ip s).2 =
       (false, (checkRateLimit now ip s).2)) /\
    (now + rateLimitTime <= later ->
       checkRateLimit later ip (checkRateLimit now ip s).2 =
       (true, record_click later ip (checkRateLimit now ip s).2)).
Proof.
  split; [apply checkRateLimit_Allow |].
  intros later. rewrite (checkRateLimit_Allow now ip s).
  destruct (Allow now ip s); cbn [fst snd]; [intros _ | discriminate].
  rewrite checkRateLimit_Allow. unfold Allow. cbn [lastClickIP record_click].
  rewrite lookup_insert_eq.
  split; intros Hlater.
  - destruct (rateLimitTime <=? later - now) eqn:E; [lia | reflexivity].
  - destruct (rateLimitTime <=? later - now) eqn:E; [reflexivity | lia].
Qed.

Lemma checkRateLimit_contract_witness :
  let s := initial_storage 0 in
  let first := checkRateLimit 1000 "10.0.0.7" s in
  first.1 = true /\
  (checkRateLimit (1000 + 50 * Time.Millisecond) "10.0.0.7" first.2).1 = false /\
  (checkRateLimit (1000 + 100 * Time.Millisecond) "10.0.0.7" first.2).1 = true.
Proof.
  intros s first.
  assert (Haccepted : first.1 = true) by reflexivity.
  destruct (checkRateLimit_contract 1000 "10.0.0.7" s) as [_ Htiming].
  split; [exact Haccepted | split].
  - destruct (Htiming (1000 + 50 * Time.Millisecond) Haccepted) as [Hreject _].
    fold first in Hreject. rewrite Hreject; [reflexivity |].
    unfold rateLimitTime, Time.Millisecond. lia.
  - destruct (Htiming (1000 + 100 * Time.Millisecond) Haccepted) as [_ Haccept].
    fold first in Haccept. rewrite Haccept; [reflexivity |].
    unfold rateLimitTime, Time.Millisecond. lia.
Defined.

(** ** The click handler *)

Lemma validate_Clicks_clamp clicks :
  validate_Clicks clicks = Z.max 1 (Z.min 10 clicks).
Proof.
  unfold validate_Clicks.
  destruct (clicks <? 1) eqn:Hlow; destruct (10 <? _) eqn:Hhigh; lia.
Qed.

Lemma validate_Clicks_bounds clicks : 1 <= validate_Clicks clicks <= 10.
Proof. rewrite validate_Clicks_clamp. lia. Qed.

Lemma handleClick_unfold now req s :
  handleClick now req s =
  if Allow now (clientIP req) s then
    match body req with
    | None => (StatusBadRequest, record_click now (clientIP req) s)
    | Some payload =>
        (StatusOK,
         incrementClicks (validate_Country (payload_Country payload))
                         (validate_Clicks (payload_Clicks payload))
                         (record_click now (clientIP req) s))
    end
  else (StatusTooManyRequests, s).
Proof.
  unfold handleClick. rewrite checkRateLimit_Allow.
  now destruct (Allow now (clientIP req) s).
Qed.

(** C5. A click request that passes the rate limiter and whose body
    parses is answered with 200 and adds to its country's counter the
    request's clicks clamped to 1..10: exactly 10 when the request says
    more than 10, exactly 1 when it says less than 1, and the value
    itself in between. *)
Theorem handleClick_adds_clamped_clicks
    (now : Z) (req : ClickRequest) (s : Storage) (payload : ClickPayload) :
  (checkRateLimit now (clientIP req) s).1 = true ->
  body req = Some payload ->
  let country := validate_Country (payload_Country payload) in
  let delta := Z.max 1 (Z.min 10 (payload_Clicks payload)) in
  handleClick now req s =
    (StatusOK, incrementClicks country delta (checkRateLimit now (clientIP req) s).2) /\
  countryClicks (handleClick now req s).2 !! country =
    Some (Int64.add (default 0 (countryClicks s !! country)) delta) /\
  (10 < payload_Clicks payload -> delta = 10) /\
  (payload_Clicks payload < 1 -> delta = 1) /\
  (1 <= payload_Clicks payload <= 10 -> delta = payload_Clicks payload).
Proof.
  intros Hallowed Hbody country delta.
  rewrite handleClick_unfold, Hbody.
  rewrite checkRateLimit_Allow in Hallowed |- *.
  destruct (Allow now (clientIP req) s); [| discriminate Hallowed].
  rewrite validate_Clicks_clamp. fold country delta. cbn [fst snd].
  split; [reflexivity | split].
  - unfold incrementClicks. cbn [countryClicks record_click].
    apply lookup_insert_eq.
  - subst delta. lia.
Qed.

Lemma handleClick_adds_clamped_clicks_witness :
  let req := {| clientIP := "10.0.0.7";
                body := Some {| payload_Country := "Japan"; payload_Clicks := 15 |} |} in
  let s := {| countryClicks := {[ "Japan"%string := 3 ]}; lastClickIP := ∅;
              startTime := 0; dirty := false |} in
  (handleClick 1000 req s).1 = StatusOK /\
  countryClicks (handleClick 1000 req s).2 !! "Japan"%string = Some 13.
Proof.
  intros req s.
  destruct (handleClick_adds_clamped_clicks 1000 req s
              {| payload_Country := "Japan"; payload_Clicks := 15 |}
              eq_refl eq_refl) as (Hout & Hcount & _).
  split.
  - rewrite Hout. reflexivity.
  - exact Hcount.
Defined.

(** The first request of a client, with a body that does not parse: it is
    answered 400, and the client's timestamp has been recorded. *)
Lemma malformed_request_records_timestamp :
  let req := {| clientIP := "10.0.0.7"; body := None |} in
  (handleClick 1000 req (initial_storage 0)).1 = StatusBadRequest /\
  lastClickIP (handleClick 1000 req (initial_storage 0)).2 !! "10.0.0.7"%string
    = Some 1000 /\
  lastClickIP (initial_storage 0) !! "10.0.0.7"%string = None /\
  ~ malformed_request_changes_nothing 1000 req (initial_storage 0).
Proof.
  intros req. repeat split; try reflexivity.
  intros Hclaim. destruct (Hclaim eq_refl) as (_ & _ & _ & Hlimiter).
  apply (f_equal (fun m => m !! "10.0.0.7"%string)) in Hlimiter.
  discriminate Hlimiter.
Qed.

(** C2 (amended). A click request whose body does not parse is answered
    with a client error and leaves the counters, the dirty flag and the
    start time as they were. The rate limiter runs before the body is
    read: if it lets the request through, the answer is 400 and the
    client's timestamp is set to [now]; if it rejects, the answer is 429
    and the whole state is unchanged. *)
Theorem handleClick_malformed_request
    (now : Z) (req : ClickRequest) (s : Storage) :
  body req = None ->
  client_error (handleClick now req s).1 /\
  countryClicks (handleClick now req s).2 = countryClicks s /\
  dirty (handleClick now req s).2 = dirty s /\
  startTime (handleClick now req s).2 = startTime s /\
  (handleClick now req s).2 = (checkRateLimit now (clientIP req) s).2 /\
  ((checkRateLimit now (clientIP req) s).1 = true ->
     (handleClick now req s).1 = StatusBadRequest /\
     lastClickIP (handleClick now req s).2 = <[clientIP req := now]> (lastClickIP s)) /\
  ((checkRateLimit now (clientIP req) s).1 = false ->
     (handleClick now req s).1 = StatusTooManyRequests /\
     (handleClick now req s).2 = s).
Proof.
  intros Hbody. rewrite handleClick_unfold, Hbody, checkRateLimit_Allow.
  unfold client_error, StatusBadRequest, StatusTooManyRequests.
  destruct (Allow now (clientIP req) s); cbn [fst snd record_click];
    repeat split; try reflexivity; try lia; try discriminate.
Qed.

Lemma handleClick_malformed_request_witness :
  let req := {| clientIP := "10.0.0.7"; body := None |} in
  let s := incrementClicks "Japan" 3 (initial_storage 0) in
  (handleClick 1000 req s).1 = 400 /\
  countryClicks (handleClick 1000 req s).2 = countryClicks s /\
  dirty (handleClick 1000 req s).2 = true.
Proof.
  intros req s.
  destruct (handleClick_malformed_request 1000 req s eq_refl)
    as (_ & Hcounters & Hdirty & _ & _ & Hallowed & _).
  destruct (Hallowed eq_refl) as [Hstatus _].
  split; [exact Hstatus | split; [exact Hcounters | exact Hdirty]].
Defined.

(** ** Saving *)

Lemma size_eqb_0_true {V} (m : gmap string V) :
  m = ∅ -> (size m =? 0)%nat = true.
Proof. now intros ->. Qed.

Lemma size_eqb_0_false {V} (m : gmap string V) :
  m <> ∅ -> (size m =? 0)%nat = false.
Proof.
  intros Hm. apply Nat.eqb_neq. contradict Hm. now apply map_size_empty_inv.
Qed.

(** [saveToRedis] by cases: nothing to do on an empty store, one HSET of
    the whole mapping otherwise. *)
Lemma saveToRedis_unfold up s r :
  saveToRedis up s r =
  if (size (countryClicks s) =? 0)%nat then
    (None, if dirty s then clear_dirty s else s, r)
  else if up then
    (None, clear_dirty s,
     {| redisKeyClicks := (Strconv.FormatInt <$> countryClicks s) ∪ redisKeyClicks r;
        redisKeyStartTime := redisKeyStartTime r;
        writes := S (writes r) |})
  else
    (Some ErrSaveClicks, s,
     {| redisKeyClicks := redisKeyClicks r;
        redisKeyStartTime := redisKeyStartTime r;
        writes := S (writes r) |}).
Proof.
  unfold saveToRedis. rewrite copy_clicks_id.
  destruct (size (countryClicks s)); cbn [Nat.eqb Nat.ltb Nat.leb].
  - destruct (dirty s); reflexivity.
  - rewrite andb_false_r. destruct up; reflexivity.
Qed.

(** One country in the store: both saves issue an HSET, although the
    first one succeeded and cleared the dirty flag. *)
Lemma second_save_writes_again :
  let s := incrementClicks "Brazil" 5 (initial_storage 0) in
  let first := saveToRedis true s empty_redis in
  let second := saveToRedis true first.1.2 first.2 in
  first.1.1 = None /\ dirty first.1.2 = false /\
  writes first.2 = 1%nat /\ writes second.2 = 2%nat /\
  ~ second_save_is_noop s empty_redis.
Proof.
  intros s first second. repeat split; try reflexivity.
  intros Hclaim. destruct (Hclaim eq_refl) as [Hsame _].
  vm_compute in Hsame. discriminate Hsame.
Qed.

(** C3 (amended). Two saves in a row, both reaching Redis and with no
    increment in between: each of them issues one HSET when the store
    holds at least one country, whatever the dirty flag says, and none
    when the store is empty. The second save writes the values the first
    one wrote, so it changes neither the store nor the contents of Redis. *)
Theorem saveToRedis_twice (s : Storage) (r : Redis) :
  let first := saveToRedis true s r in
  let second := saveToRedis true first.1.2 first.2 in
  let issued := if decide (countryClicks s = ∅) then 0%nat else 1%nat in
  first.1.1 = None /\ second.1.1 = None /\
  dirty first.1.2 = false /\
  writes first.2 = (writes r + issued)%nat /\
  writes second.2 = (writes first.2 + issued)%nat /\
  second.1.2 = first.1.2 /\
  redisKeyClicks second.2 = redisKeyClicks first.2 /\
  redisKeyStartTime second.2 = redisKeyStartTime first.2.
Proof.
  cbn zeta. rewrite (saveToRedis_unfold true s r).
  destruct (decide (countryClicks s = ∅)) as [Hempty | Hsome].
  - rewrite size_eqb_0_true by exact Hempty. cbn [fst snd].
    rewrite saveToRedis_unfold.
    assert (countryClicks (if dirty s then clear_dirty s else s) = ∅) as Hempty'
      by now destruct (dirty s).
    rewrite size_eqb_0_true by exact Hempty'. cbn [fst snd].
    destruct (dirty s) eqn:Hdirty; cbn [dirty clear_dirty]; rewrite ?Hdirty;
      repeat split; lia.
  - rewrite size_eqb_0_false by exact Hsome. cbn [fst snd].
    rewrite saveToRedis_unfold. cbn [countryClicks clear_dirty].
    rewrite size_eqb_0_false by exact Hsome.
    cbn [fst snd dirty redisKeyClicks redisKeyStartTime writes].
    repeat split; try lia.
    now rewrite (assoc_L (∪)), (idemp_L (∪)).
Qed.

(** A process loads the count of Brazil from Redis, so that its store
    is not dirty; at the next save Redis is out of reach. The save issues
    its HSET, reports the error, and the dirty flag is false afterwards,
    as it was before. *)
Lemma failed_save_of_clean_store :
  let r0 := {| redisKeyClicks := {[ "Brazil"%string := "5"%string ]};
               redisKeyStartTime := Some "1000"%string; writes := 0 |} in
  let loaded := loadFromRedis true true true (initial_storage 2000000000000) r0 in
  let failed := saveToRedis false loaded.1.2 loaded.2 in
  loaded.1.1 = None /\
  countryClicks loaded.1.2 !! "Brazil"%string = Some 5 /\
  dirty loaded.1.2 = false /\
  writes failed.2 = S (writes loaded.2) /\
  failed.1.1 = Some ErrSaveClicks /\
  dirty failed.1.2 = false /\
  ~ failed_save_leaves_dirty loaded.1.2 loaded.2.
Proof.
  intros r0 loaded failed. repeat split; try (vm_compute; reflexivity).
  intros Hclaim. destruct (Hclaim eq_refl eq_refl) as [Hdirty _].
  vm_compute in Hdirty. discriminate Hdirty.
Qed.

(** C8 (amended). When the store holds a country, so that a save does
    issue its HSET, and the command fails: the save reports the error and
    changes nothing in memory. The counter mapping is as it was, and the
    dirty flag keeps the value it had: it stays set if it was set, and
    stays cleared in a store that had nothing pending (one just loaded or
    just saved). The next save that gets through then writes every
    counter of the store. A set dirty flag is cleared by a save if and
    only if its write succeeds. *)
Theorem saveToRedis_failed_write (s : Storage) (r : Redis) :
  countryClicks s <> ∅ ->
  let failed := saveToRedis false s r in
  let retry := saveToRedis true failed.1.2 failed.2 in
  failed.1.1 = Some ErrSaveClicks /\
  writes failed.2 = S (writes r) /\
  failed.1.2 = s /\
  countryClicks failed.1.2 = countryClicks s /\
  dirty failed.1.2 = dirty s /\
  (dirty s = true -> dirty failed.1.2 = true) /\
  redisKeyClicks failed.2 = redisKeyClicks r /\
  retry.1.1 = None /\
  dirty retry.1.2 = false /\
  (forall country clicks,
     countryClicks s !! country = Some clicks ->
     redisKeyClicks retry.2 !! country = Some (Strconv.FormatInt clicks)) /\
  (forall up, dirty s = true ->
     dirty (saveToRedis up s r).1.2 = false <-> up = true).
Proof.
  intros Hsome. cbn zeta. rewrite (saveToRedis_unfold false s r).
  rewrite size_eqb_0_false by exact Hsome. cbn [fst snd].
  rewrite saveToRedis_unfold, size_eqb_0_false by exact Hsome.
  cbn [fst snd dirty clear_dirty redisKeyClicks writes].
  repeat split; try reflexivity; try tauto.
  - intros country clicks Hcount.
    apply lookup_union_Some_l. now rewrite lookup_fmap, Hcount.
  - rewrite saveToRedis_unfold, size_eqb_0_false by exact Hsome.
    destruct up; cbn [fst snd dirty clear_dirty]; congruence.
  - intros ->. rewrite saveToRedis_unfold, size_eqb_0_false by exact Hsome.
    reflexivity.
Qed.

Lemma saveToRedis_failed_write_witness :
  let s := incrementClicks "Peru" 2 (incrementClicks "Brazil" 5 (initial_storage 0)) in
  let failed := saveToRedis false s empty_redis in
  let retry := saveToRedis true failed.1.2 failed.2 in
  failed.1.1 = Some ErrSaveClicks /\ dirty failed.1.2 = true /\
  redisKeyClicks retry.2 !! "Brazil"%string = Some "5"%string /\
  redisKeyClicks retry.2 !! "Peru"%string = Some "2"%string.
Proof.
  intros s failed retry.
  assert (Hsome : countryClicks s <> ∅).
  { intros Hempty. apply (f_equal (fun m => m !! "Peru"%string)) in Hempty.
    discriminate Hempty. }
  destruct (saveToRedis_failed_write s empty_redis Hsome)
    as (Herr & _ & _ & _ & _ & Hdirty & _ & _ & _ & Hcovered & _).
  split; [exact Herr | split; [exact (Hdirty eq_refl) | split]].
  - exact (Hcovered "Brazil"%string 5 eq_refl).
  - exact (Hcovered "Peru"%string 2 eq_refl).
Defined.

(** ** Saving, then loading in a new process *)

Lemma loadFromRedis_unfold up_set s r :
  loadFromRedis true true up_set s r =
  (None,
   {| countryClicks := omap Strconv.ParseInt (redisKeyClicks r) ∪ countryClicks s;
      lastClickIP := lastClickIP s;
      startTime := adopted_start (redisKeyStartTime r) (startTime s);
      dirty := dirty s |},
   match redisKeyStartTime r with
   | Some _ => r
   | None => (Set_ up_set (Time.to_Unix (startTime s)) r).2
   end).
Proof.
  unfold loadFromRedis, HGetAll, Get, adopted_start.
  assert ((if (0 <? size (redisKeyClicks r))%nat
           then load_clicks (redisKeyClicks r) (countryClicks s)
           else countryClicks s)
          = omap Strconv.ParseInt (redisKeyClicks r) ∪ countryClicks s) as ->.
  { destruct (0 <? size (redisKeyClicks r))%nat eqn:Hsize.
    - apply load_clicks_union.
    - rewrite (size_pos_nonempty _ Hsize), omap_empty.
      now rewrite (left_id_L ∅ (∪)). }
  destruct (redisKeyStartTime r) as [startTimeStr |]; [| reflexivity].
  now destruct (Strconv.ParseInt startTimeStr).
Qed.

Lemma reload_saved_clicks (clicks : gmap string Z) (hash : gmap string string) :
  (forall country n, clicks !! country = Some n -> Int64.in_range n) ->
  omap Strconv.ParseInt ((Strconv.FormatInt <$> clicks) ∪ hash) =
  clicks ∪ omap Strconv.ParseInt hash.
Proof.
  intros Hrange. apply map_eq. intros country.
  rewrite lookup_omap, !lookup_union, lookup_fmap, lookup_omap.
  destruct (clicks !! country) as [n |] eqn:Hn; cbn.
  - destruct (hash !! country) as [v |]; cbn;
      rewrite (ParseInt_FormatInt n) by eauto; [| reflexivity].
    now destruct (Strconv.ParseInt v).
  - destruct (hash !! country) as [v |]; cbn; [| reflexivity].
    now destruct (Strconv.ParseInt v).
Qed.

Lemma to_Unix_Unix sec : Time.to_Unix (Time.Unix sec) = sec.
Proof. unfold Time.to_Unix, Time.Unix, Time.Second. now rewrite Z.div_mul. Qed.

Lemma Unix_to_Unix t :
  t mod Time.Second = 0 -> Time.Unix (Time.to_Unix t) = t.
Proof.
  unfold Time.to_Unix, Time.Unix, Time.Second. intros Hwhole.
  pose proof (Z.div_mod t 1000000000 ltac:(lia)). lia.
Qed.

(** A first process starts at 1000.5 s on an empty Redis, loads (which
    stores the start time as the whole second 1000), counts five clicks
    and saves; the process that starts next loads the counters as they
    were, and 1000 s as its start time. *)
Lemma save_load_loses_start_time :
  let boot := 1000500000000 in
  let first := loadFromRedis true true true (initial_storage boot) empty_redis in
  let s := incrementClicks "Brazil" 5 first.1.2 in
  let saved := saveToRedis true s first.2 in
  let loaded := loadFromRedis true true true (initial_storage 2000000000000) saved.2 in
  first.1.1 = None /\ saved.1.1 = None /\ loaded.1.1 = None /\
  redisKeyStartTime saved.2 = Some "1000"%string /\
  countryClicks loaded.1.2 = countryClicks s /\
  startTime s = 1000500000000 /\
  startTime loaded.1.2 = 1000000000000 /\
  ~ save_load_reproduces s first.2 2000000000000.
Proof.
  intros boot first s saved loaded.
  repeat split; try (vm_compute; reflexivity).
  intros Hclaim. destruct (Hclaim eq_refl) as [_ Hstart].
  vm_compute in Hstart. discriminate Hstart.
Qed.

(** C4 (amended). A save that succeeds, followed by a load into the empty
    store of a new process, gives back every counter of the store with
    its value: the loaded mapping is the saved one, together with the
    parsable fields the hash already held for other countries, hence
    exactly the saved one when the hash held no such field.  The save
    does not write the start time.  The load takes it from the key
    [football:start_time], where the first load of an empty Redis put it
    in whole seconds; the start time of the store is given back when the
    key holds it and it is a whole number of seconds; without the key the
    new process keeps its own start time. *)
Theorem save_then_load (s : Storage) (r : Redis) (boot : Z) (up_set : bool) :
  store_int64 s ->
  let saved := saveToRedis true s r in
  let loaded := loadFromRedis true true up_set (initial_storage boot) saved.2 in
  saved.1.1 = None /\ loaded.1.1 = None /\
  countryClicks loaded.1.2 =
    countryClicks s ∪ omap Strconv.ParseInt (redisKeyClicks r) /\
  (forall country clicks,
     countryClicks s !! country = Some clicks ->
     countryClicks loaded.1.2 !! country = Some clicks) /\
  (dom (redisKeyClicks r) ⊆ dom (countryClicks s) ->
     countryClicks loaded.1.2 = countryClicks s) /\
  redisKeyStartTime saved.2 = redisKeyStartTime r /\
  startTime loaded.1.2 = adopted_start (redisKeyStartTime r) boot /\
  (redisKeyStartTime r = Some (Strconv.FormatInt (Time.to_Unix (startTime s))) ->
   Int64.in_range (Time.to_Unix (startTime s)) ->
   startTime s mod Time.Second = 0 ->
   startTime loaded.1.2 = startTime s).
Proof.
  intros Hrange. cbn zeta.
  assert (Hsaved :
    (saveToRedis true s r).1.1 = None /\
    redisKeyStartTime (saveToRedis true s r).2 = redisKeyStartTime r /\
    omap Strconv.ParseInt (redisKeyClicks (saveToRedis true s r).2) =
    countryClicks s ∪ omap Strconv.ParseInt (redisKeyClicks r)).
  { rewrite saveToRedis_unfold.
    destruct (size (countryClicks s) =? 0)%nat eqn:Hsize; cbn [fst snd].
    - apply Nat.eqb_eq, map_size_empty_inv in Hsize.
      rewrite Hsize, (left_id_L ∅ (∪)). auto.
    - cbn [redisKeyClicks redisKeyStartTime].
      rewrite reload_saved_clicks by exact Hrange. auto. }
  destruct Hsaved as (Herr & Hmarker & Hhash).
  rewrite loadFromRedis_unfold. cbn [fst snd countryClicks startTime initial_storage].
  rewrite Hhash, Hmarker, (right_id_L ∅ (∪)).
  split; [exact Herr | split; [reflexivity | split; [reflexivity |]]].
  split; [| split; [| split; [reflexivity | split; [reflexivity |]]]].
  - intros country clicks Hcount. now apply lookup_union_Some_l.
  - intros Hdom. apply map_eq. intros country.
    rewrite lookup_union, lookup_omap.
    destruct (countryClicks s !! country) as [n |] eqn:Hn.
    + now destruct (_ ≫= _).
    + apply not_elem_of_dom in Hn.
      assert (redisKeyClicks r !! country = None) as ->
        by (apply not_elem_of_dom; set_solver).
      reflexivity.
  - intros -> Hsec Hwhole. unfold adopted_start.
    rewrite ParseInt_FormatInt by exact Hsec. now apply Unix_to_Unix.
Qed.

Lemma save_then_load_witness :
  let s := {| countryClicks := {[ "Brazil"%string := 5; "Peru"%string := 2 ]};
              lastClickIP := ∅; startTime := Time.Unix 1000; dirty := true |} in
  let r := {| redisKeyClicks := ∅; redisKeyStartTime := Some "1000"%string;
              writes := 1 |} in
  let loaded :=
    loadFromRedis true true true (initial_storage (Time.Unix 2000))
                  (saveToRedis true s r).2 in
  countryClicks loaded.1.2 = countryClicks s /\
  startTime loaded.1.2 = startTime s.
Proof.
  intros s r loaded.
  assert (Hrange : store_int64 s).
  { intros country clicks Hcount. apply in_rangeb_spec.
    destruct (decide (country = "Brazil"%string)) as [-> | Hb];
      [now inversion Hcount |].
    destruct (decide (country = "Peru"%string)) as [-> | Hp];
      [now inversion Hcount |].
    unfold s in Hcount. cbn [countryClicks] in Hcount.
    rewrite lookup_insert_ne, lookup_singleton_ne in Hcount by congruence.
    discriminate Hcount. }
  destruct (save_then_load s r (Time.Unix 2000) true Hrange)
    as (_ & _ & _ & _ & Hclicks & _ & _ & Hstart).
  split.
  - apply Hclicks. unfold r. cbn [redisKeyClicks]. set_solver.
  - apply Hstart; [reflexivity | apply in_rangeb_spec; reflexivity | reflexivity].
Defined.

(** ** The leaderboard *)

Lemma sum_list_Z_perm l l' : l ≡ₚ l' -> sum_list_Z l = sum_list_Z l'.
Proof.
  unfold sum_list_Z.
  induction 1 as [| x l l' _ IH | x y l | l l' l'' _ IH1 _ IH2]; cbn; lia.
Qed.

Lemma fold_add_wrap l :
  forall total, Int64.in_range total ->
    fold_left Int64.add l total = Int64.wrap (total + sum_list_Z l).
Proof.
  unfold sum_list_Z.
  induction l as [| n l IH]; intros total Htotal; cbn [fold_left foldr].
  - rewrite Z.add_0_r. symmetry. now apply wrap_id.
  - rewrite IH by apply wrap_in_range.
    unfold Int64.add. rewrite wrap_add_l. f_equal. lia.
Qed.

Lemma collect_from entries :
  forall totalClicks result,
    fold_left (fun '(totalClicks, result) '(country, clicks) =>
                 (Int64.add totalClicks clicks,
                  result ++ [{| Country := country; Clicks := clicks;
                                KPS := PrimFloat.zero |}]))
              entries (totalClicks, result) =
    (fold_left Int64.add (map snd entries) totalClicks,
     result ++ map country_row entries).
Proof.
  induction entries as [| [country clicks] entries IH]; intros totalClicks result; cbn.
  - now rewrite app_nil_r.
  - rewrite IH, <- app_assoc. reflexivity.
Qed.

Lemma collect_spec entries :
  collect entries =
  (Int64.wrap (sum_list_Z (map snd entries)), map country_row entries).
Proof.
  unfold collect. rewrite collect_from, fold_add_wrap; [reflexivity |].
  int64_bounds. lia.
Qed.


Section Leaderboard.

Context `{rt : Runtime}.

(** The leaderboard is the row of the total, then the rows of the
    countries, which are the entries of the map in some order that is
    sorted by clicks. *)
Lemma getLeaderboard_rows now s :
  exists rows,
    getLeaderboard now s =
      {| Country := "Worldwide";
         Clicks := Int64.wrap (sum_clicks (countryClicks s));
         KPS := worldwide_kps now s (Int64.wrap (sum_clicks (countryClicks s))) |}
      :: rows /\
    rows ≡ₚ map country_row (map_to_list (countryClicks s)) /\
    StronglySorted (fun a b => Clicks b <= Clicks a) rows.
Proof.
  unfold getLeaderboard. rewrite collect_spec.
  pose proof (range_map_perm (countryClicks s)) as Hperm.
  rewrite (sum_list_Z_perm _ (map snd (map_to_list (countryClicks s))))
    by now apply Permutation_map.
  eexists. split; [reflexivity | split].
  - rewrite sort_Slice_perm. now apply Permutation_map.
  - pose proof (sort_Slice_sorted more_clicks
                  (map country_row (range_map (countryClicks s)))
                  more_clicks_order) as Hsorted.
    eapply StronglySorted_ind with (P := StronglySorted _); [..| exact Hsorted].
    + constructor.
    + intros a l _ IH Ha. constructor; [exact IH |].
      eapply Forall_impl; [exact Ha |]. unfold more_clicks. intros b Hb. lia.
Qed.

Lemma elem_of_country_rows (m : gmap string Z) rows row :
  rows ≡ₚ map country_row (map_to_list m) ->
  row ∈ rows <->
  m !! Country row = Some (Clicks row) /\ KPS row = PrimFloat.zero.
Proof.
  intros ->. rewrite list_elem_of_fmap. split.
  - intros ([country clicks] & -> & Hentry).
    apply elem_of_map_to_list in Hentry. now cbn.
  - intros [Hcount Hkps]. exists (Country row, Clicks row). split.
    + destruct row as [c n k]. cbn in *. now subst k.
    + now apply elem_of_map_to_list.
Qed.

Lemma NoDup_country_rows (m : gmap string Z) rows :
  rows ≡ₚ map country_row (map_to_list m) -> NoDup (map Country rows).
Proof.
  intros ->. rewrite map_map. cbn. apply NoDup_fst_map_to_list.
Qed.

End Leaderboard.



(** ** Increments and the leaderboard *)

Lemma incrementClicks_int64 country clicks s :
  store_int64 s -> store_int64 (incrementClicks country clicks s).
Proof.
  intros Hs c n. unfold incrementClicks. cbn [countryClicks].
  destruct (decide (country = c)) as [-> | Hne].
  - rewrite lookup_insert_eq. intros [= <-]. apply wrap_in_range.
  - rewrite lookup_insert_ne by exact Hne. apply Hs.
Qed.

Lemma count_of_in_range s country : store_int64 s -> Int64.in_range (count_of s country).
Proof.
  intros Hs. unfold count_of.
  destruct (countryClicks s !! country) as [n |] eqn:Hn; cbn.
  - eapply Hs, Hn.
  - int64_bounds. lia.
Qed.

Lemma count_of_incrementClicks c clicks s country :
  count_of (incrementClicks c clicks s) country =
  if String.eqb c country then Int64.wrap (count_of s country + clicks)
  else count_of s country.
Proof.
  unfold count_of, incrementClicks. cbn [countryClicks].
  destruct (String.eqb_spec c country) as [-> | Hne].
  - now rewrite lookup_insert_eq.
  - now rewrite lookup_insert_ne.
Qed.

Lemma apply_increments_count ops country :
  forall s, store_int64 s ->
    count_of (apply_increments ops s) country =
    Int64.wrap (count_of s country + received country ops).
Proof.
  induction ops as [| [c d] ops IH]; intros s Hs; cbn [apply_increments fold_left received].
  - rewrite Z.add_0_r. symmetry. apply wrap_id, count_of_in_range, Hs.
  - fold (apply_increments ops (incrementClicks c d s)).
    rewrite IH by now apply incrementClicks_int64.
    rewrite count_of_incrementClicks. cbn [fst snd].
    destruct (String.eqb c country).
    + rewrite wrap_add_l. f_equal; lia.
    + f_equal; lia.
Qed.

Lemma apply_increments_present ops country :
  forall s,
    is_Some (countryClicks s !! country) \/ country ∈ ops.*1 ->
    is_Some (countryClicks (apply_increments ops s) !! country).
Proof.
  induction ops as [| [c d] ops IH]; intros s; cbn [apply_increments fold_left].
  - intros [Hs | Hin]; [exact Hs | now apply elem_of_nil in Hin].
  - fold (apply_increments ops (incrementClicks c d s)).
    intros Hpresent. apply IH. cbn [incrementClicks countryClicks fst snd].
    destruct (decide (c = country)) as [-> | Hne].
    + left. rewrite lookup_insert_eq. eauto.
    + rewrite lookup_insert_ne by exact Hne.
      destruct Hpresent as [Hs | Hin]; [now left | right].
      cbn in Hin. apply elem_of_cons in Hin as [-> | Hin]; [congruence | exact Hin].
Qed.

(** A count loaded as 9223372036854775807, the largest int64, and one
    more click: the counter wraps around, and so does the total. *)
Lemma increment_wraps_around :
  let s := {| countryClicks := {[ "Japan"%string := Int64.max_int ]};
              lastClickIP := ∅; startTime := 0; dirty := false |} in
  let ops := [("Japan"%string, 1)] in
  Strconv.ParseInt "9223372036854775807" = Some Int64.max_int /\
  count_of s "Japan" + received "Japan" ops = 2 ^ 63 /\
  map Clicks (getLeaderboard (rt := reference_runtime) 0 (apply_increments ops s))
    = [Int64.min_int; Int64.min_int] /\
  ~ row_shows_exact_sum (rt := reference_runtime) ops s "Japan" 0.
Proof.
  intros s ops. repeat split; try (vm_compute; reflexivity).
  intros Hclaim.
  specialize (Hclaim {| Country := "Japan"; Clicks := Int64.min_int;
                        KPS := PrimFloat.zero |}).
  assert (Hsum : count_of s "Japan" + received "Japan" ops = 2 ^ 63)
    by (vm_compute; reflexivity).
  rewrite Hsum in Hclaim. cbn [Country Clicks] in Hclaim.
  assert (Hwrapped : Int64.min_int = 2 ^ 63); [| discriminate Hwrapped].
  apply Hclaim; [| reflexivity].
  vm_compute. apply list_elem_of_here.
Qed.

(** C1 (amended). After any sequence of accepted increments, the
    leaderboard has a row for every country that was in the store or
    received an increment, and this row shows the country's initial
    count plus the sum of the deltas it received, reduced to int64 by
    wrap-around: it is exactly that sum whenever the sum is an int64. The
    row "Worldwide" likewise shows the sum of the counts of all the
    countries' rows reduced to int64, exactly that sum whenever it is an
    int64. *)
Theorem increments_reach_leaderboard `{rt : Runtime}
    (ops : list (string * Z)) (s : Storage) (country : string) (now : Z) :
  store_int64 s ->
  is_Some (countryClicks s !! country) \/ country ∈ ops.*1 ->
  let total := count_of s country + received country ops in
  let s' := apply_increments ops s in
  exists worldwide rows,
    getLeaderboard now s' = worldwide :: rows /\
    (exists row, row ∈ rows /\ Country row = country) /\
    (forall row, row ∈ rows -> Country row = country ->
       Clicks row = Int64.wrap total) /\
    (Int64.in_range total ->
     forall row, row ∈ rows -> Country row = country -> Clicks row = total) /\
    sum_clicks (countryClicks s') = sum_list_Z (map Clicks rows) /\
    Clicks worldwide = Int64.wrap (sum_list_Z (map Clicks rows)) /\
    (Int64.in_range (sum_list_Z (map Clicks rows)) ->
     Clicks worldwide = sum_list_Z (map Clicks rows)).
Proof.
  intros Hs Hpresent total s'.
  destruct (getLeaderboard_rows now s') as (rows & Hboard & Hperm & _).
  assert (Hsum : sum_clicks (countryClicks s') = sum_list_Z (map Clicks rows)).
  { unfold sum_clicks. apply sum_list_Z_perm. rewrite Hperm, map_map.
    reflexivity. }
  assert (Hrow : forall row, row ∈ rows -> Country row = country ->
                             Clicks row = Int64.wrap total).
  { intros row Hin <-.
    apply (elem_of_country_rows (countryClicks s') rows row Hperm) in Hin as [Hcount _].
    pose proof (apply_increments_count ops (Country row) s Hs) as Hfinal.
    fold s' in Hfinal. unfold count_of at 1 in Hfinal.
    rewrite Hcount in Hfinal. exact Hfinal. }
  eexists _, rows. split; [exact Hboard |]. cbn [Clicks]. rewrite Hsum.
  split; [| split; [exact Hrow | split; [| split; [reflexivity | split; [reflexivity |]]]]].
  - destruct (apply_increments_present ops country s Hpresent) as [n Hn].
    exists (country_row (country, n)). split; [| reflexivity].
    now apply (elem_of_country_rows (countryClicks s') rows _ Hperm).
  - intros Hrange row Hin Hcountry.
    rewrite (Hrow row Hin Hcountry). now apply wrap_id.
  - intros Hrange. now apply wrap_id.
Qed.

Lemma increments_reach_leaderboard_witness :
  let ops := [("Japan"%string, 1); ("Peru"%string, 2); ("Japan"%string, 1);
              ("Japan"%string, 1)] in
  exists worldwide rows,
    getLeaderboard (rt := reference_runtime) 0 (apply_increments ops (initial_storage 0))
      = worldwide :: rows /\
    (forall row, row ∈ rows -> Country row = "Japan"%string -> Clicks row = 3) /\
    Clicks worldwide = 5.
Proof.
  intros ops.
  assert (Hs : store_int64 (initial_storage 0)).
  { intros country clicks Hcount. cbn in Hcount.
    rewrite lookup_empty in Hcount. discriminate Hcount. }
  assert (Hjapan : "Japan"%string ∈ ops.*1) by (cbn; apply list_elem_of_here).
  destruct (increments_reach_leaderboard (rt := reference_runtime)
              ops (initial_storage 0) "Japan"%string 0 Hs (or_intror Hjapan))
    as (worldwide & rows & Hboard & _ & _ & Hexact & Hsum & _ & Hworld).
  exists worldwide, rows. split; [exact Hboard | split].
  - apply Hexact. apply in_rangeb_spec. reflexivity.
  - rewrite Hworld; rewrite <- Hsum; [reflexivity |].
    apply in_rangeb_spec. reflexivity.
Defined.

(** ** Counters across the operations of the service *)

(** A count at the largest int64 and one more click for that country:
    the count becomes the smallest int64. *)
Lemma click_beyond_max_int_decreases :
  let s := {| countryClicks := {[ "Japan"%string := Int64.max_int ]};
              lastClickIP := ∅; startTime := 0; dirty := false |} in
  let req := {| clientIP := "10.0.0.7";
                body := Some {| payload_Country := "Japan"; payload_Clicks := 1 |} |} in
  let s' := (perform (rt := reference_runtime) (OpClick 1000 req) s empty_redis).1 in
  counts_nonneg s /\
  (handleClick 1000 req s).1 = StatusOK /\
  countryClicks s' !! "Japan"%string = Some Int64.min_int /\
  ~ counts_never_decrease (rt := reference_runtime) (OpClick 1000 req) s empty_redis.
Proof.
  intros s req s'.
  assert (Hnonneg : counts_nonneg s).
  { intros country clicks Hcount. unfold s in Hcount. cbn [countryClicks] in Hcount.
    apply lookup_singleton_Some in Hcount as [_ <-]. discriminate. }
  repeat split; try exact Hnonneg; try (vm_compute; reflexivity).
  intros Hclaim. destruct (Hclaim Hnonneg) as [Hstill _].
  specialize (Hstill "Japan"%string Int64.min_int).
  apply Hstill; [vm_compute |]; reflexivity.
Qed.

(** C9 (amended). With non-negative counts to start from, every
    operation of the service (a click request, a save, a leaderboard
    request) leaves every count non-negative, removes no country and
    decreases no count, as long as the count that a click is added to
    stays within int64, that is, at most 9223372036854775807. *)
Theorem counters_never_decrease `{rt : Runtime}
    (op : operation) (s : Storage) (r : Redis) :
  counts_nonneg s ->
  click_fits op s ->
  counts_nonneg (perform op s r).1 /\ counts_kept s (perform op s r).1.
Proof.
  intros Hnonneg Hfits.
  assert (Hsame : forall s', countryClicks s' = countryClicks s ->
                             counts_nonneg s' /\ counts_kept s s').
  { intros s' Heq. split; intros country clicks; rewrite Heq.
    - apply Hnonneg.
    - intros Hcount. exists clicks. split; [exact Hcount | lia]. }
  destruct op as [now req | up_hset | now]; cbn [perform fst snd].
  - rewrite handleClick_unfold.
    destruct (Allow now (clientIP req) s); [| now apply Hsame].
    destruct (body req) as [payload |] eqn:Hbody; [| now apply Hsame].
    cbn [fst snd]. specialize (Hfits payload Hbody).
    set (country := validate_Country (payload_Country payload)) in *.
    set (delta := validate_Clicks (payload_Clicks payload)) in *.
    pose proof (validate_Clicks_bounds (payload_Clicks payload)) as Hdelta.
    fold delta in Hdelta. clearbody country delta.
    assert (Hold : 0 <= count_of s country).
    { unfold count_of. destruct (countryClicks s !! country) as [n |] eqn:Hn; cbn.
      - eapply Hnonneg, Hn.
      - lia. }
    assert (Hnew : Int64.add (count_of s country) delta = count_of s country + delta).
    { apply wrap_id. int64_bounds. lia. }
    unfold incrementClicks. cbn [countryClicks record_click].
    fold (count_of s country). rewrite Hnew.
    split; intros c n; cbn [countryClicks].
    + destruct (decide (country = c)) as [<- | Hne].
      * rewrite lookup_insert_eq. intros [= <-]. lia.
      * rewrite lookup_insert_ne by exact Hne. apply Hnonneg.
    + intros Hcount. destruct (decide (country = c)) as [<- | Hne].
      * exists (count_of s country + delta). rewrite lookup_insert_eq.
        split; [reflexivity |]. unfold count_of. rewrite Hcount. cbn. lia.
      * exists n. rewrite lookup_insert_ne by exact Hne.
        split; [exact Hcount | lia].
  - apply Hsame. rewrite saveToRedis_unfold.
    destruct (size (countryClicks s) =? 0)%nat; [now destruct (dirty s) |].
    now destruct up_hset.
  - now apply Hsame.
Qed.

Lemma counters_never_decrease_witness :
  let s := incrementClicks "Japan" 3 (initial_storage 0) in
  let req := {| clientIP := "10.0.0.7";
                body := Some {| payload_Country := "Japan"; payload_Clicks := 4 |} |} in
  counts_kept s (perform (rt := reference_runtime) (OpClick 1000 req) s empty_redis).1 /\
  counts_kept s (perform (rt := reference_runtime) (OpSave true) s empty_redis).1.
Proof.
  intros s req.
  assert (Hnonneg : counts_nonneg s).
  { intros country clicks Hcount. unfold s in Hcount.
    cbn [countryClicks incrementClicks initial_storage] in Hcount.
    apply lookup_insert_Some in Hcount as [[_ <-] | [_ Hcount]].
    - discriminate.
    - rewrite lookup_empty in Hcount. discriminate Hcount. }
  split.
  - refine (proj2 (counters_never_decrease (rt := reference_runtime)
                     (OpClick 1000 req) s empty_redis Hnonneg _)).
    intros payload [= <-]. discriminate.
  - exact (proj2 (counters_never_decrease (rt := reference_runtime)
                    (OpSave true) s empty_redis Hnonneg I)).
Defined.

(** ** The scenarios of the specification, run on the model *)

(** Three clicks for Japan, 100 ms apart. *)
Example scenario_three_clicks :
  let s1 := (handleClick 0 (click "Japan" 1) (initial_storage 0)).2 in
  let s2 := (handleClick (100 * Time.Millisecond) (click "Japan" 1) s1).2 in
  let s3 := (handleClick (200 * Time.Millisecond) (click "Japan" 1) s2).2 in
  board (rt := reference_runtime) Time.Second s3 = [("Worldwide", 3); ("Japan", 3)]%string.
Proof. vm_compute. reflexivity. Qed.

(** One request of 15 clicks counts for 10. *)
Example scenario_fifteen_clicks :
  board (rt := reference_runtime) Time.Second (handleClick 0 (click "Japan" 15) (initial_storage 0)).2
  = [("Worldwide", 10); ("Japan", 10)]%string.
Proof. vm_compute. reflexivity. Qed.

(** Two clicks 50 ms apart, a third 120 ms after the first. *)
Example scenario_rate_limit :
  let first := handleClick 0 (click "Japan" 1) (initial_storage 0) in
  let second := handleClick (50 * Time.Millisecond) (click "Japan" 1) first.2 in
  let third := handleClick (120 * Time.Millisecond) (click "Japan" 1) second.2 in
  (first.1, second.1, third.1) = (200, 429, 200) /\
  board (rt := reference_runtime) Time.Second third.2 = [("Worldwide", 2); ("Japan", 2)]%string.
Proof. split; vm_compute; reflexivity. Qed.

(** Brazil 5 and Peru 2 are saved; the next process loads them. *)
Example scenario_restart :
  let s := incrementClicks "Peru" 2 (incrementClicks "Brazil" 5 (initial_storage 0)) in
  let saved := saveToRedis true s empty_redis in
  let loaded := loadFromRedis true true true (initial_storage (7 * Time.Second)) saved.2 in
  board (rt := reference_runtime) (8 * Time.Second) loaded.1.2
  = [("Worldwide", 7); ("Brazil", 5); ("Peru", 2)]%string.
Proof. vm_compute. reflexivity. Qed.

(** * Further properties of main.go *)

(** ** Operations as sequences of critical sections *)

Lemma perform_sections `{rt : Runtime} (op : operation) (s : Storage) (r : Redis) :
  perform op s r = run (sections_of op s) (s, r).
Proof.
  destruct op as [now req | up_hset | now]; cbn [perform sections_of run fold_left enter fst snd];
    try reflexivity.
  unfold handleClick.
  destruct (checkRateLimit now (clientIP req) s) as [allowed s1] eqn:Hcheck.
  cbn [fst snd]. destruct allowed; cbn [negb fold_left]; [| reflexivity].
  destruct (body req) as [payload |]; reflexivity.
Qed.

Lemma run_app `{rt : Runtime} cs1 cs2 w : run (cs1 ++ cs2) w = run cs2 (run cs1 w).
Proof. unfold run. apply fold_left_app. Qed.

(** ** What a load does to the counters *)

Lemma loadFromRedis_clicks up_get up_set s r :
  let out := loadFromRedis true up_get up_set s r in
  out.1.1 = None /\
  countryClicks out.1.2 = omap Strconv.ParseInt (redisKeyClicks r) ∪ countryClicks s /\
  lastClickIP out.1.2 = lastClickIP s /\
  dirty out.1.2 = dirty s /\
  redisKeyClicks out.2 = redisKeyClicks r.
Proof.
  cbn zeta. unfold loadFromRedis, HGetAll, Get.
  assert ((if (0 <? size (redisKeyClicks r))%nat
           then load_clicks (redisKeyClicks r) (countryClicks s)
           else countryClicks s)
          = omap Strconv.ParseInt (redisKeyClicks r) ∪ countryClicks s) as ->.
  { destruct (0 <? size (redisKeyClicks r))%nat eqn:Hsize.
    - apply load_clicks_union.
    - rewrite (size_pos_nonempty _ Hsize), omap_empty.
      now rewrite (left_id_L ∅ (∪)). }
  destruct up_get; [| now cbn].
  destruct (redisKeyStartTime r) as [startTimeStr |].
  - now destruct (Strconv.ParseInt startTimeStr).
  - unfold Set_. now destruct up_set.
Qed.

Lemma durable_int64 r country clicks :
  durable r !! country = Some clicks -> Int64.in_range clicks.
Proof.
  unfold durable. rewrite lookup_omap_Some. intros (v & Hparse & _).
  eapply ParseInt_in_range, Hparse.
Qed.

Lemma load_consistent up_get up_set boot r :
  let out := loadFromRedis true up_get up_set (initial_storage boot) r in
  consistent out.1.2 out.2 /\ countryClicks out.1.2 = durable r.
Proof.
  destruct (loadFromRedis_clicks up_get up_set (initial_storage boot) r)
    as (_ & Hclicks & _ & Hdirty & Hhash).
  cbn zeta. cbn [countryClicks dirty initial_storage] in Hclicks, Hdirty.
  rewrite (right_id_L ∅ (∪)) in Hclicks.
  split; [| exact Hclicks]. unfold consistent, store_int64.
  rewrite Hclicks, Hdirty.
  split; [| split].
  - intros country clicks. apply durable_int64.
  - discriminate.
  - unfold durable. now rewrite Hhash.
Qed.

(** ** What the sections keep *)

Lemma save_through_durable s r :
  consistent s r ->
  durable (saveToRedis true s r).2 = countryClicks s.
Proof.
  intros (Hint & _ & Hdom). rewrite saveToRedis_unfold.
  destruct (size (countryClicks s) =? 0)%nat eqn:Hsize; cbn [snd].
  - apply Nat.eqb_eq, map_size_empty_inv in Hsize. rewrite Hsize in *.
    apply dom_empty_inv_L. set_solver.
  - unfold durable. cbn [redisKeyClicks].
    rewrite reload_saved_clicks by exact Hint.
    apply map_eq. intros country. rewrite lookup_union.
    destruct (countryClicks s !! country) as [n |] eqn:Hn.
    + now destruct (omap _ _ !! country).
    + apply not_elem_of_dom in Hn.
      assert (durable r !! country = None) as Hnone
        by (apply not_elem_of_dom; set_solver).
      unfold durable in Hnone. now rewrite Hnone.
Qed.

Lemma saveToRedis_clicks up s r :
  countryClicks (saveToRedis up s r).1.2 = countryClicks s /\
  lastClickIP (saveToRedis up s r).1.2 = lastClickIP s /\
  startTime (saveToRedis up s r).1.2 = startTime s /\
  redisKeyStartTime (saveToRedis up s r).2 = redisKeyStartTime r.
Proof.
  rewrite saveToRedis_unfold.
  destruct (size (countryClicks s) =? 0)%nat; [now destruct (dirty s) |].
  now destruct up.
Qed.

Lemma enter_consistent `{rt : Runtime} c w :
  consistent w.1 w.2 -> consistent (enter c w).1 (enter c w).2.
Proof.
  destruct w as [s r]. cbn [fst snd]. intros (Hint & Hdirty & Hdom).
  destruct c as [now ip | country clicks | up | now]; cbn [enter fst snd].
  - rewrite checkRateLimit_Allow.
    destruct (Allow now ip s); cbn [snd]; exact (conj Hint (conj Hdirty Hdom)).
  - split; [now apply incrementClicks_int64 | split].
    + intros _. cbn [incrementClicks countryClicks]. apply insert_non_empty.
    + cbn [incrementClicks countryClicks]. rewrite dom_insert_L. set_solver.
  - destruct up.
    + pose proof (save_through_durable s r (conj Hint (conj Hdirty Hdom))) as Hdur.
      destruct (saveToRedis_clicks true s r) as (Hclicks & _).
      split; [| split].
      * unfold store_int64. rewrite Hclicks. exact Hint.
      * rewrite saveToRedis_unfold.
        destruct (size (countryClicks s) =? 0)%nat; cbn [fst snd].
        -- destruct (dirty s) eqn:Hd; [discriminate | now rewrite Hd].
        -- discriminate.
      * now rewrite Hdur, Hclicks.
    + rewrite saveToRedis_unfold.
      destruct (size (countryClicks s) =? 0)%nat; cbn [fst snd].
      * destruct (dirty s) eqn:Hd.
        -- split; [exact Hint | split; [discriminate | exact Hdom]].
        -- split; [exact Hint | split; [now rewrite Hd | exact Hdom]].
      * exact (conj Hint (conj Hdirty Hdom)).
  - exact (conj Hint (conj Hdirty Hdom)).
Qed.

Lemma run_consistent `{rt : Runtime} cs :
  forall w, consistent w.1 w.2 -> consistent (run cs w).1 (run cs w).2.
Proof.
  induction cs as [| c cs IH]; intros w Hw; [exact Hw |].
  cbn [run fold_left]. apply (IH (enter c w)), enter_consistent, Hw.
Qed.

Lemma enter_keeps `{rt : Runtime} c w :
  startTime (enter c w).1 = startTime w.1 /\
  dom (countryClicks w.1) ⊆ dom (countryClicks (enter c w).1) /\
  dom (lastClickIP w.1) ⊆ dom (lastClickIP (enter c w).1) /\
  redisKeyStartTime (enter c w).2 = redisKeyStartTime w.2.
Proof.
  destruct w as [s r].
  destruct c as [now ip | country clicks | up | now]; cbn [enter fst snd].
  - rewrite checkRateLimit_Allow.
    destruct (Allow now ip s); cbn [snd record_click startTime countryClicks lastClickIP];
      repeat split; try done.
    rewrite dom_insert_L. set_solver.
  - cbn [incrementClicks startTime countryClicks lastClickIP].
    repeat split; try done. rewrite dom_insert_L. set_solver.
  - destruct (saveToRedis_clicks up s r) as (-> & -> & -> & ->). repeat split; done.
  - repeat split; done.
Qed.

Lemma run_keeps `{rt : Runtime} cs :
  forall w,
    startTime (run cs w).1 = startTime w.1 /\
    dom (countryClicks w.1) ⊆ dom (countryClicks (run cs w).1) /\
    dom (lastClickIP w.1) ⊆ dom (lastClickIP (run cs w).1) /\
    redisKeyStartTime (run cs w).2 = redisKeyStartTime w.2.
Proof.
  induction cs as [| c cs IH]; intros w; [repeat split; done |].
  cbn [run fold_left]. fold (run cs (enter c w)).
  destruct (IH (enter c w)) as (-> & Hc & Hl & ->).
  destruct (enter_keeps c w) as (-> & Hc' & Hl' & ->).
  repeat split; etrans; eassumption.
Qed.

Lemma run_without_save_through `{rt : Runtime} cs :
  Forall (fun c => is_save_through c = false) cs ->
  forall w, redisKeyClicks (run cs w).2 = redisKeyClicks w.2.
Proof.
  induction 1 as [| c cs Hc _ IH]; intros w; [reflexivity |].
  cbn [run fold_left]. fold (run cs (enter c w)). rewrite IH.
  destruct w as [s r].
  destruct c as [now ip | country clicks | [|] | now]; cbn [enter fst snd];
    try reflexivity; [discriminate Hc |].
  rewrite saveToRedis_unfold.
  now destruct (size (countryClicks s) =? 0)%nat.
Qed.

(** ** The service from its first load on *)

(** X1. In a service whose load went through, after any sequence of
    critical sections (rate-limiter checks, increments, saves that
    succeed or fail, leaderboard requests) in any order: the test
    [!dirty && len == 0] of [saveToRedis] has the value of [len == 0]
    alone, every country that has a parsable count in Redis is in the
    store, no country that was loaded has left the store, every count is
    an int64, and the start time of the store and the one kept in Redis
    are those the load left. *)
Theorem service_stays_consistent `{rt : Runtime}
    (boot : Z) (r0 : Redis) (up_get up_set : bool) (cs : list critical) :
  let started := loadFromRedis true up_get up_set (initial_storage boot) r0 in
  let w := run cs (started.1.2, started.2) in
  negb (dirty w.1) && (size (countryClicks w.1) =? 0)%nat
    = (size (countryClicks w.1) =? 0)%nat /\
  dom (durable w.2) ⊆ dom (countryClicks w.1) /\
  dom (durable r0) ⊆ dom (countryClicks w.1) /\
  store_int64 w.1 /\
  startTime w.1 = startTime started.1.2 /\
  redisKeyStartTime w.2 = redisKeyStartTime started.2.
Proof.
  intros started w.
  destruct (load_consistent up_get up_set boot r0) as [Hstart Hloaded].
  fold started in Hstart, Hloaded.
  pose proof (run_consistent cs (started.1.2, started.2) Hstart) as Hrun.
  fold w in Hrun. destruct Hrun as (Hint & Hdirty & Hdom).
  destruct (run_keeps cs (started.1.2, started.2)) as (Htime & Hkept & _ & Hmarker).
  fold w in Htime, Hkept, Hmarker. cbn [fst snd] in Htime, Hkept, Hmarker.
  split; [| split; [exact Hdom | split; [| split; [exact Hint | split]]]].
  - destruct (dirty w.1); [| reflexivity]. cbn [negb andb].
    symmetry. apply size_eqb_0_false. now apply Hdirty.
  - now rewrite <- Hloaded.
  - exact Htime.
  - exact Hmarker.
Qed.

(** X2. What a crash loses. In a service whose load went through, take
    any run up to a save that succeeds, followed by any sections among
    which no save succeeds (clicks, failed saves, leaderboard requests).
    A process that starts then and loads finds exactly the counters the
    store had at that successful save: the increments made since are
    lost, and nothing else is. Without any successful save, it finds the
    counters of the first load. *)
Theorem restart_finds_last_save `{rt : Runtime}
    (boot boot' : Z) (r0 : Redis) (up_get up_set up_get' up_set' : bool)
    (before after : list critical) :
  Forall (fun c => is_save_through c = false) after ->
  let started := loadFromRedis true up_get up_set (initial_storage boot) r0 in
  let saved := run (before ++ [DoSave true]) (started.1.2, started.2) in
  let crashed := run after saved in
  let unsaved := run after (started.1.2, started.2) in
  countryClicks
    (loadFromRedis true up_get' up_set' (initial_storage boot') crashed.2).1.2
    = countryClicks saved.1 /\
  countryClicks
    (loadFromRedis true up_get' up_set' (initial_storage boot') unsaved.2).1.2
    = countryClicks started.1.2.
Proof.
  intros Hafter started saved crashed unsaved.
  destruct (load_consistent up_get up_set boot r0) as [Hstart Hloaded].
  fold started in Hstart, Hloaded.
  assert (Hreload : forall r,
    countryClicks (loadFromRedis true up_get' up_set' (initial_storage boot') r).1.2
    = durable r).
  { intros r. apply load_consistent. }
  rewrite !Hreload. unfold durable, crashed, unsaved.
  rewrite !(run_without_save_through after Hafter). split.
  - unfold saved. rewrite run_app.
    pose proof (run_consistent before (started.1.2, started.2) Hstart) as Hw.
    set (w := run before (started.1.2, started.2)) in *.
    change (run [DoSave true] w) with (enter (DoSave true) w).
    cbn [enter fst snd].
    rewrite (proj1 (saveToRedis_clicks true w.1 w.2)).
    now apply save_through_durable.
  - cbn [snd]. rewrite Hloaded. unfold durable, started.
    now rewrite (proj2 (proj2 (proj2 (proj2
      (loadFromRedis_clicks up_get up_set (initial_storage boot) r0))))).
Qed.

Lemma restart_finds_last_save_witness :
  let before := [DoCheckRateLimit 0 "10.0.0.7"; DoIncrement "Japan" 1] in
  let after := [DoIncrement "Japan" 1; DoSave false; DoLeaderboard 5] in
  let started := loadFromRedis true true true (initial_storage 0) empty_redis in
  let saved := run (rt := reference_runtime) (before ++ [DoSave true])
                   (started.1.2, started.2) in
  let crashed := run (rt := reference_runtime) after saved in
  count_of crashed.1 "Japan" = 2 /\
  count_of (loadFromRedis true true true (initial_storage 9) crashed.2).1.2 "Japan" = 1.
Proof.
  intros before after started saved crashed. split; [reflexivity |].
  assert (Hafter : Forall (fun c => is_save_through c = false) after)
    by (repeat constructor).
  destruct (restart_finds_last_save (rt := reference_runtime)
              0 9 empty_redis true true true true before after Hafter) as [Hfound _].
  etrans; [exact (f_equal (fun m => default 0 (m !! "Japan"%string)) Hfound) |].
  reflexivity.
Defined.

(** ** Increments in any order *)

Lemma incrementClicks_swap c1 d1 c2 d2 s :
  incrementClicks c1 d1 (incrementClicks c2 d2 s) =
  incrementClicks c2 d2 (incrementClicks c1 d1 s).
Proof.
  unfold incrementClicks. cbn [countryClicks lastClickIP startTime]. f_equal.
  destruct (decide (c1 = c2)) as [-> | Hne].
  - rewrite !lookup_insert_eq, !insert_insert_eq. cbn [default]. f_equal.
    unfold Int64.add, id. rewrite !wrap_add_l. f_equal. lia.
  - rewrite !lookup_insert_ne by congruence. now apply insert_insert_ne.
Qed.

(** X3. Increments commute: whatever the order in which concurrent
    click requests take the lock for their increment, the store ends up
    the same, wrap-around included. *)
Theorem increments_commute (ops ops' : list (string * Z)) (s : Storage) :
  ops ≡ₚ ops' -> apply_increments ops s = apply_increments ops' s.
Proof.
  intros Hperm. revert s.
  induction Hperm as [| op ops ops' _ IH | op1 op2 ops | ops ops' ops'' _ IH1 _ IH2];
    intros s; cbn [apply_increments fold_left].
  - reflexivity.
  - apply IH.
  - now rewrite incrementClicks_swap.
  - etrans; [apply IH1 | apply IH2].
Qed.

Lemma increments_commute_witness :
  countryClicks
    (apply_increments [("Japan"%string, 1); ("Peru"%string, 2); ("Japan"%string, 3)]
                      (initial_storage 0))
  = {[ "Japan"%string := 4; "Peru"%string := 2 ]}.
Proof.
  rewrite (increments_commute
             [("Japan"%string, 1); ("Peru"%string, 2); ("Japan"%string, 3)]
             [("Peru"%string, 2); ("Japan"%string, 3); ("Japan"%string, 1)]
             (initial_storage 0)).
  - vm_compute. reflexivity.
  - etrans; [apply Permutation_swap |]. now apply Permutation_skip, Permutation_swap.
Defined.

(** ** The dirty flag and the writes *)

(** X4. The dirty flag has no part in what a save sends to Redis or in
    its result: with the flag set or cleared, the same command is issued
    (or none), Redis ends up the same and the same error is returned. *)
Theorem save_ignores_dirty_flag (up : bool) (s : Storage) (r : Redis) (flag : bool) :
  let s' := {| countryClicks := countryClicks s; lastClickIP := lastClickIP s;
               startTime := startTime s; dirty := flag |} in
  (saveToRedis up s' r).2 = (saveToRedis up s r).2 /\
  (saveToRedis up s' r).1.1 = (saveToRedis up s r).1.1 /\
  writes (saveToRedis up s r).2 =
    (writes r + if (size (countryClicks s) =? 0)%nat then 0 else 1)%nat.
Proof.
  cbn zeta. rewrite !saveToRedis_unfold. cbn [countryClicks dirty].
  destruct (size (countryClicks s) =? 0)%nat; cbn [fst snd].
  - destruct flag, (dirty s); repeat split; cbn; lia.
  - destruct up; cbn [fst snd writes]; repeat split; lia.
Qed.

(** ** The start time across restarts *)

(** X5. Once [football:start_time] holds seconds that parse, nothing
    the service does changes the key, and every process that gets to
    read it runs with that start time, whenever it was started: two
    successive processes agree on the start time. *)
Theorem restarts_agree_on_start_time `{rt : Runtime}
    (r0 : Redis) (marker : string) (sec : Z)
    (boot boot' : Z) (up_set up_set' : bool) (cs cs' : list critical) :
  redisKeyStartTime r0 = Some marker ->
  Strconv.ParseInt marker = Some sec ->
  let first := loadFromRedis true true up_set (initial_storage boot) r0 in
  let w := run cs (first.1.2, first.2) in
  let second := loadFromRedis true true up_set' (initial_storage boot') w.2 in
  let w' := run cs' (second.1.2, second.2) in
  startTime w.1 = Time.Unix sec /\
  startTime w'.1 = Time.Unix sec /\
  redisKeyStartTime w'.2 = Some marker.
Proof.
  intros Hmarker Hsec first w second w'.
  assert (Hload : forall boot0 up r,
    redisKeyStartTime r = Some marker ->
    startTime (loadFromRedis true true up (initial_storage boot0) r).1.2 = Time.Unix sec /\
    redisKeyStartTime (loadFromRedis true true up (initial_storage boot0) r).2 = Some marker).
  { intros boot0 up r Hr. rewrite loadFromRedis_unfold. cbn [fst snd startTime].
    rewrite Hr. unfold adopted_start. now rewrite Hsec. }
  destruct (Hload boot up_set r0 Hmarker) as [Hstart1 Hkey1]. fold first in Hstart1, Hkey1.
  destruct (run_keeps cs (first.1.2, first.2)) as (Htime & _ & _ & Hkey).
  fold w in Htime, Hkey. cbn [fst snd] in Htime, Hkey.
  rewrite Hkey1 in Hkey.
  destruct (Hload boot' up_set' w.2 Hkey) as [Hstart2 Hkey2].
  fold second in Hstart2, Hkey2.
  destruct (run_keeps cs' (second.1.2, second.2)) as (Htime' & _ & _ & Hkey').
  fold w' in Htime', Hkey'. cbn [fst snd] in Htime', Hkey'.
  split; [congruence | split; congruence].
Qed.

Lemma restarts_agree_on_start_time_witness :
  let r0 := {| redisKeyClicks := ∅; redisKeyStartTime := Some "1000"%string;
               writes := 1 |} in
  let first := loadFromRedis true true true (initial_storage 1234567890123) r0 in
  let w := run (rt := reference_runtime) [DoIncrement "Japan" 1; DoSave true]
               (first.1.2, first.2) in
  let second := loadFromRedis true true true (initial_storage 9876543210987) w.2 in
  startTime w.1 = 1000 * Time.Second /\ startTime second.1.2 = 1000 * Time.Second.
Proof.
  intros r0 first w second.
  destruct (restarts_agree_on_start_time (rt := reference_runtime)
              r0 "1000" 1000 1234567890123 9876543210987 true true
              [DoIncrement "Japan" 1; DoSave true] [] eq_refl eq_refl)
    as (Hfirst & Hsecond & _).
  split; [exact Hfirst | exact Hsecond].
Defined.

Lemma to_Unix_bounds t :
  t - Time.Second < Time.Unix (Time.to_Unix t) <= t.
Proof.
  unfold Time.Unix, Time.to_Unix, Time.Second.
  pose proof (Z.div_mod t 1000000000 ltac:(lia)).
  pose proof (Z.mod_pos_bound t 1000000000 ltac:(lia)). lia.
Qed.

(** X6. The first process on a Redis without [football:start_time]
    keeps its own start time, to the nanosecond, and stores it in whole
    seconds. If that write gets through, the next process runs with the
    first start time rounded down to the second, less than a second
    before it; if it does not, nothing is stored and the next process
    starts the count of time anew from its own start. *)
Theorem first_boot_start_time `{rt : Runtime}
    (r0 : Redis) (boot boot' : Z) (up_set up_set' : bool) (cs : list critical) :
  redisKeyStartTime r0 = None ->
  Int64.in_range (Time.to_Unix boot) ->
  let first := loadFromRedis true true up_set (initial_storage boot) r0 in
  let w := run cs (first.1.2, first.2) in
  let second := loadFromRedis true true up_set' (initial_storage boot') w.2 in
  startTime w.1 = boot /\
  startTime second.1.2 =
    (if up_set then Time.Unix (Time.to_Unix boot) else boot') /\
  (if up_set
   then boot - Time.Second < startTime second.1.2 <= boot
   else redisKeyStartTime w.2 = None).
Proof.
  intros Hnone Hrange first w second.
  assert (Hfirst : startTime first.1.2 = boot /\
                   redisKeyStartTime first.2 =
                   if up_set then Some (Strconv.FormatInt (Time.to_Unix boot)) else None).
  { unfold first. rewrite loadFromRedis_unfold. cbn [fst snd startTime].
    rewrite Hnone. cbn [adopted_start initial_storage startTime]. unfold Set_.
    destruct up_set; cbn [snd redisKeyStartTime]; auto. }
  destruct Hfirst as [Hstart Hkey].
  destruct (run_keeps cs (first.1.2, first.2)) as (Htime & _ & _ & Hkey').
  fold w in Htime, Hkey'. cbn [fst snd] in Htime, Hkey'. rewrite Hkey in Hkey'.
  assert (Hsecond : startTime second.1.2 =
                    if up_set then Time.Unix (Time.to_Unix boot) else boot').
  { unfold second. rewrite loadFromRedis_unfold. cbn [fst snd startTime].
    rewrite Hkey'. destruct up_set; cbn [adopted_start initial_storage startTime].
    - now rewrite ParseInt_FormatInt.
    - reflexivity. }
  split; [congruence | split; [exact Hsecond |]].
  destruct up_set; [| exact Hkey'].
  rewrite Hsecond. apply to_Unix_bounds.
Qed.

Lemma first_boot_start_time_witness :
  let first := loadFromRedis true true true (initial_storage 1000500000000) empty_redis in
  let w := run (rt := reference_runtime) [DoIncrement "Japan" 1; DoSave true]
               (first.1.2, first.2) in
  let second := loadFromRedis true true true (initial_storage 2000000000000) w.2 in
  startTime w.1 = 1000500000000 /\ startTime second.1.2 = 1000000000000.
Proof.
  intros first w second.
  assert (Hrange : Int64.in_range (Time.to_Unix 1000500000000))
    by (apply in_rangeb_spec; reflexivity).
  destruct (first_boot_start_time (rt := reference_runtime)
              empty_redis 1000500000000 2000000000000 true true
              [DoIncrement "Japan" 1; DoSave true] eq_refl Hrange)
    as (Hfirst & Hsecond & _).
  split; [exact Hfirst | exact Hsecond].
Defined.

(** ** A load that fails, and the save that follows *)

Lemma apply_increments_absent ops country :
  forall s,
    countryClicks s !! country = None -> country ∉ ops.*1 ->
    countryClicks (apply_increments ops s) !! country = None.
Proof.
  induction ops as [| [c d] ops IH]; intros s Hs Hnotin; cbn [apply_increments fold_left].
  - exact Hs.
  - fold (apply_increments ops (incrementClicks c d s)).
    cbn in Hnotin. apply not_elem_of_cons in Hnotin as [Hne Hnotin].
    apply IH; [| exact Hnotin].
    cbn [incrementClicks countryClicks fst snd]. now rewrite lookup_insert_ne.
Qed.

Lemma apply_increments_lookup ops country s :
  store_int64 s ->
  countryClicks (apply_increments ops s) !! country =
  if decide (is_Some (countryClicks s !! country) \/ country ∈ ops.*1)
  then Some (Int64.wrap (count_of s country + received country ops))
  else None.
Proof.
  intros Hs. destruct (decide _) as [Hpresent | Habsent].
  - destruct (apply_increments_present ops country s Hpresent) as [n Hn].
    pose proof (apply_increments_count ops country s Hs) as Hcount.
    unfold count_of at 1 in Hcount. rewrite Hn in Hcount. cbn in Hcount.
    now rewrite Hn, Hcount.
  - apply apply_increments_absent.
    + destruct (countryClicks s !! country) eqn:E; [| reflexivity].
      exfalso. apply Habsent. left. eauto.
    + intros Hin. apply Habsent. now right.
Qed.

Lemma initial_storage_int64 boot : store_int64 (initial_storage boot).
Proof. intros country clicks Hcount. cbn in Hcount. now rewrite lookup_empty in Hcount. Qed.

(** X7. When Redis answers the ping but the load fails, [main] goes on
    with an empty store and with saving enabled. The first save that
    gets through then sets, for every country clicked since the start,
    the field of Redis to the clicks counted since the start, whatever
    count Redis held for it, and leaves the other fields as they were. *)
Theorem failed_load_then_save
    (boot : Z) (r0 : Redis) (up_get up_set : bool) (ops : list (string * Z)) :
  let started := startup true false up_get up_set boot r0 in
  let s := apply_increments ops started.1.1 in
  let saved := saveToRedis true s started.1.2 in
  started = (initial_storage boot, r0, true) /\
  saved.1.1 = None /\
  forall country,
    redisKeyClicks saved.2 !! country =
    if decide (country ∈ ops.*1)
    then Some (Strconv.FormatInt (Int64.wrap (received country ops)))
    else redisKeyClicks r0 !! country.
Proof.
  cbn zeta. unfold startup, loadFromRedis, HGetAll. cbn [fst snd].
  split; [reflexivity |].
  assert (Hlookup : forall country,
    countryClicks (apply_increments ops (initial_storage boot)) !! country =
    if decide (country ∈ ops.*1)
    then Some (Int64.wrap (received country ops)) else None).
  { intros country.
    rewrite (apply_increments_lookup ops country _ (initial_storage_int64 boot)).
    unfold count_of. cbn [countryClicks initial_storage]. rewrite lookup_empty.
    cbn [default]. rewrite Z.add_0_l.
    destruct (decide (country ∈ ops.*1)) as [Hin | Hnotin].
    - rewrite decide_True; [reflexivity | now right].
    - rewrite decide_False; [reflexivity |]. intros [[? [=]] | ?]. contradiction. }
  rewrite saveToRedis_unfold.
  destruct (size _ =? 0)%nat eqn:Hsize; cbn [fst snd redisKeyClicks].
  - split; [reflexivity |]. intros country.
    apply Nat.eqb_eq, map_size_empty_inv in Hsize.
    specialize (Hlookup country). rewrite Hsize, lookup_empty in Hlookup.
    destruct (decide (country ∈ ops.*1)); [discriminate Hlookup | reflexivity].
  - split; [reflexivity |]. intros country.
    rewrite lookup_union, lookup_fmap, Hlookup.
    destruct (decide (country ∈ ops.*1)); cbn.
    + now destruct (redisKeyClicks r0 !! country).
    + now destruct (redisKeyClicks r0 !! country).
Qed.

(** ** Configuration from the environment *)

Lemma FormatInt_nonempty n : Strconv.FormatInt n <> EmptyString.
Proof.
  unfold Strconv.FormatInt. destruct (n <? 0); [discriminate |].
  apply format_digits_nonempty.
Qed.

(** X8. [getEnvInt] gives the default when the variable is not set, is
    set to the empty string or holds something that is not the decimal
    text of an int64, and reads back every int64 written in decimal. *)
Theorem getEnvInt_default_or_value
    (env : gmap string string) (key : string) (defaultValue : Z) :
  (env !! key = None \/ env !! key = Some EmptyString ->
     getEnvInt env key defaultValue = defaultValue) /\
  (forall value, env !! key = Some value -> Strconv.ParseInt value = None ->
     getEnvInt env key defaultValue = defaultValue) /\
  (forall n, Int64.in_range n -> env !! key = Some (Strconv.FormatInt n) ->
     getEnvInt env key defaultValue = n) /\
  (Int64.in_range defaultValue -> Int64.in_range (getEnvInt env key defaultValue)).
Proof.
  unfold getEnvInt, Getenv, Atoi. split; [| split; [| split]].
  - intros [-> | ->]; reflexivity.
  - intros value -> Hparse. cbn [from_option id]. rewrite Hparse.
    now destruct (negb _).
  - intros n Hn ->. cbn [from_option id].
    destruct (String.eqb_spec (Strconv.FormatInt n) "") as [Hempty | _].
    + now apply FormatInt_nonempty in Hempty.
    + cbn [negb]. now rewrite ParseInt_FormatInt.
  - intros Hd. destruct (negb _); [| exact Hd].
    destruct (Strconv.ParseInt _) as [v |] eqn:Hv; [| exact Hd].
    eapply ParseInt_in_range, Hv.
Qed.

Lemma getEnvInt_default_or_value_witness :
  getEnvInt {[ "REDIS_DB"%string := "3"%string ]} "REDIS_DB" 0 = 3 /\
  getEnvInt {[ "REDIS_DB"%string := "three"%string ]} "REDIS_DB" 0 = 0 /\
  getEnvInt ∅ "REDIS_DB" 0 = 0.
Proof.
  split; [| split].
  - apply (proj1 (proj2 (proj2 (getEnvInt_default_or_value
             {[ "REDIS_DB"%string := "3"%string ]} "REDIS_DB" 0))) 3).
    + apply in_rangeb_spec. reflexivity.
    + reflexivity.
  - apply (proj1 (proj2 (getEnvInt_default_or_value
             {[ "REDIS_DB"%string := "three"%string ]} "REDIS_DB" 0)) "three"%string);
      reflexivity.
  - apply (proj1 (getEnvInt_default_or_value ∅ "REDIS_DB" 0)). left. reflexivity.
Defined.

(** ** The client address *)

Lemma append_empty s : String.append EmptyString s = s.
Proof. reflexivity. Qed.

Lemma append_String c a b : String.append (String c a) b = String c (String.append a b).
Proof. reflexivity. Qed.

Lemma before_sep_stops sep a rest :
  all_bytes (fun c => negb (Ascii.eqb c sep)) a = true ->
  before_sep sep (String.append a (String sep rest)) = a /\ before_sep sep a = a.
Proof.
  induction a as [| c a IH]; rewrite ?append_empty, ?append_String;
    cbn [all_bytes before_sep].
  - intros _. now rewrite Ascii.eqb_refl.
  - intros [Hc Ha]%andb_true_iff. apply negb_true_iff in Hc. rewrite Hc.
    destruct (IH Ha) as [-> ->]. auto.
Qed.

Lemma before_sep_free sep s :
  all_bytes (fun c => negb (Ascii.eqb c sep)) (before_sep sep s) = true.
Proof.
  induction s as [| c s IH]; cbn [all_bytes before_sep]; [reflexivity |].
  destruct (Ascii.eqb c sep) eqn:Hc; cbn [all_bytes]; [reflexivity |]. now rewrite Hc.
Qed.

Lemma before_sep_prefix sep s :
  exists rest, s = String.append (before_sep sep s) rest.
Proof.
  induction s as [| c s [rest IH]]; cbn [before_sep].
  - now exists EmptyString.
  - destruct (Ascii.eqb c sep).
    + now exists (String c s).
    + exists rest. rewrite append_String. now rewrite <- IH.
Qed.

(** X9. With neither proxy header, the client is identified by what
    stands before the first colon of [RemoteAddr]: a prefix of it that
    holds no colon. For [host:port] with a host without colon (an IPv4
    address) this is the host; for an IPv6 [[addr]:port] it is the
    bracket and what precedes the first colon of the address. *)
Theorem getClientIP_from_RemoteAddr `{ut : UnicodeTrim} (r : Request) :
  XForwardedFor r = EmptyString ->
  XRealIP r = EmptyString ->
  all_bytes (fun c => negb (Ascii.eqb c ":")) (getClientIP r) = true /\
  (exists rest, RemoteAddr r = String.append (getClientIP r) rest) /\
  (forall host port,
     all_bytes (fun c => negb (Ascii.eqb c ":")) host = true ->
     RemoteAddr r = String.append host (String ":" port) ->
     getClientIP r = host).
Proof.
  intros Hf Hr. unfold getClientIP. rewrite Hf, Hr. cbn [String.eqb negb].
  split; [apply before_sep_free | split; [apply before_sep_prefix |]].
  intros host port Hhost ->. now apply before_sep_stops.
Qed.

Lemma getClientIP_from_RemoteAddr_witness :
  let ut := {| TrimFunc_IsSpace := id; TrimRightFunc_IsSpace := id |} in
  getClientIP {| XForwardedFor := ""; XRealIP := ""; RemoteAddr := "203.0.113.9:51234" |}
    = "203.0.113.9"%string /\
  getClientIP {| XForwardedFor := ""; XRealIP := ""; RemoteAddr := "[2001:db8::1]:51234" |}
    = "[2001"%string.
Proof.
  intros ut. split.
  - apply (proj2 (proj2 (getClientIP_from_RemoteAddr
             {| XForwardedFor := ""; XRealIP := ""; RemoteAddr := "203.0.113.9:51234" |}
             eq_refl eq_refl)) "203.0.113.9"%string "51234"%string); reflexivity.
  - apply (proj2 (proj2 (getClientIP_from_RemoteAddr
             {| XForwardedFor := ""; XRealIP := ""; RemoteAddr := "[2001:db8::1]:51234" |}
             eq_refl eq_refl)) "[2001"%string "db8::1]:51234"%string); reflexivity.
Defined.

Lemma asciiSpace_ascii c : asciiSpace c = true -> RuneSelf c = false.
Proof.
  unfold asciiSpace, RuneSelf. intros H. apply Nat.leb_gt.
  apply orb_true_iff in H as [[_ H]%andb_true_iff | H].
  - apply Nat.leb_le in H. lia.
  - apply Nat.eqb_eq in H. lia.
Qed.

Lemma trim_right_spaces trail :
  all_bytes asciiSpace trail = true -> trim_right trail = AllSpace.
Proof.
  induction trail as [| c trail IH]; cbn [all_bytes trim_right]; [reflexivity |].
  intros [Hc Htrail]%andb_true_iff. rewrite (IH Htrail), (asciiSpace_ascii c Hc), Hc.
  reflexivity.
Qed.

Lemma trim_right_plain ip trail :
  ip <> EmptyString ->
  all_bytes plain ip = true -> all_bytes asciiSpace trail = true ->
  trim_right (String.append ip trail) = Kept ip.
Proof.
  induction ip as [| c ip IH]; [congruence |]. intros _.
  rewrite append_String. cbn [all_bytes trim_right].
  intros [Hc Hip]%andb_true_iff Htrail.
  unfold plain in Hc. apply andb_true_iff in Hc as [[Hascii Hspace]%andb_true_iff _].
  apply negb_true_iff in Hascii, Hspace.
  destruct ip as [| c' ip'].
  - rewrite append_empty.
    now rewrite (trim_right_spaces trail Htrail), Hascii, Hspace.
  - rewrite IH; [reflexivity | discriminate | exact Hip | exact Htrail].
Qed.

Lemma TrimSpace_token `{ut : UnicodeTrim} lead ip trail :
  ip <> EmptyString ->
  all_bytes plain ip = true ->
  all_bytes asciiSpace lead = true -> all_bytes asciiSpace trail = true ->
  TrimSpace (String.append lead (String.append ip trail)) = ip.
Proof.
  intros Hne Hip Hlead Htrail. induction lead as [| c lead IH].
  - rewrite append_empty. destruct ip as [| c ip']; [congruence |].
    pose proof (trim_right_plain (String c ip') trail Hne Hip Htrail) as Hright.
    cbn [all_bytes] in Hip. apply andb_true_iff in Hip as [Hc _].
    unfold plain in Hc. apply andb_true_iff in Hc as [[Hascii Hspace]%andb_true_iff _].
    apply negb_true_iff in Hascii, Hspace.
    rewrite append_String in Hright |- *. cbn [TrimSpace]. rewrite Hascii, Hspace.
    now rewrite Hright.
  - rewrite append_String. cbn [all_bytes] in Hlead.
    apply andb_true_iff in Hlead as [Hc Hlead]. cbn [TrimSpace].
    rewrite (asciiSpace_ascii c Hc), Hc. now apply IH.
Qed.

Lemma spaces_no_comma s :
  all_bytes asciiSpace s = true ->
  all_bytes (fun c => negb (Ascii.eqb c ",")) s = true.
Proof.
  induction s as [| c s IH]; cbn [all_bytes]; [reflexivity |].
  intros [Hc Hs]%andb_true_iff. rewrite (IH Hs), andb_true_r.
  apply negb_true_iff, Ascii.eqb_neq. intros ->. discriminate Hc.
Qed.

Lemma plain_no_comma s :
  all_bytes plain s = true ->
  all_bytes (fun c => negb (Ascii.eqb c ",")) s = true.
Proof.
  induction s as [| c s IH]; cbn [all_bytes]; [reflexivity |].
  intros [Hc Hs]%andb_true_iff. rewrite (IH Hs), andb_true_r.
  unfold plain in Hc. now apply andb_true_iff in Hc as [_ Hc].
Qed.

Lemma all_bytes_app p a b :
  all_bytes p (String.append a b) = all_bytes p a && all_bytes p b.
Proof.
  induction a as [| c a IH]; rewrite ?append_empty, ?append_String; cbn [all_bytes];
    [reflexivity |].
  now rewrite IH, andb_assoc.
Qed.

Lemma before_sep_split sep s :
  s = before_sep sep s \/
  exists rest, s = String.append (before_sep sep s) (String sep rest).
Proof.
  induction s as [| c s IH]; cbn [before_sep]; [now left |].
  destruct (Ascii.eqb_spec c sep) as [-> | Hc].
  - right. now exists s.
  - destruct IH as [IH | [rest IH]].
    + left. now rewrite <- IH.
    + right. exists rest. rewrite append_String. now rewrite <- IH.
Qed.

Lemma TrimSpace_spaces `{ut : UnicodeTrim} s :
  all_bytes asciiSpace s = true -> TrimSpace s = EmptyString.
Proof.
  induction s as [| c s IH]; cbn [all_bytes TrimSpace]; [reflexivity |].
  intros [Hc Hs]%andb_true_iff. rewrite (asciiSpace_ascii c Hc), Hc. now apply IH.
Qed.

Lemma TrimSpace_lead `{ut : UnicodeTrim} lead s :
  all_bytes asciiSpace lead = true ->
  TrimSpace (String.append lead s) = TrimSpace s.
Proof.
  induction lead as [| c lead IH]; [reflexivity |].
  rewrite append_String. cbn [all_bytes TrimSpace].
  intros [Hc Hlead]%andb_true_iff. rewrite (asciiSpace_ascii c Hc), Hc. now apply IH.
Qed.

Lemma last_byte_String c s :
  last_byte (String c s) = Some (default c (last_byte s)).
Proof. cbn [last_byte]. now destruct (last_byte s). Qed.

Lemma trim_right_bounded core trail z :
  last_byte core = Some z -> asciiSpace z = false ->
  all_bytes asciiSpace trail = true ->
  trim_right (String.append core trail) =
  if RuneSelf z then NonASCII core else Kept core.
Proof.
  intros Hlast Hz Htrail. revert Hlast.
  induction core as [| c core IH]; [discriminate |].
  rewrite append_String. cbn [last_byte trim_right].
  destruct (last_byte core) as [z' |] eqn:Hcore.
  - intros [= ->]. rewrite (IH eq_refl). now destruct (RuneSelf z).
  - intros [= ->]. destruct core; [| cbn in Hcore; now destruct (last_byte core)].
    rewrite append_empty, (trim_right_spaces trail Htrail), Hz.
    now destruct (RuneSelf z).
Qed.

Lemma TrimSpace_core `{ut : UnicodeTrim} core trail :
  bounded core = true -> all_bytes asciiSpace trail = true ->
  TrimSpace (String.append core trail) = trimmed core trail.
Proof.
  intros Hbounded Htrail. destruct core as [| a tl].
  - rewrite append_empty. now apply TrimSpace_spaces.
  - unfold bounded, trimmed in *. cbn [first_byte] in *.
    rewrite last_byte_String in *. set (z := default a (last_byte tl)) in *.
    apply andb_true_iff in Hbounded as [Ha Hz]. apply negb_true_iff in Ha, Hz.
    pose proof (trim_right_bounded (String a tl) trail z
                  (last_byte_String a tl) Hz Htrail) as Hright.
    rewrite append_String in Hright |- *. cbn [TrimSpace].
    destruct (RuneSelf a); [reflexivity |]. rewrite Ha, Hright.
    now destruct (RuneSelf z).
Qed.

Lemma append_assoc a b c :
  String.append a (String.append b c) = String.append (String.append a b) c.
Proof.
  induction a as [| x a IH]; [reflexivity |]. now rewrite !append_String, IH.
Qed.

Lemma last_byte_app_String lead a tl :
  last_byte (String.append lead (String a tl)) = last_byte (String a tl).
Proof.
  induction lead as [| l lead IH]; [reflexivity |].
  rewrite append_String, last_byte_String, IH, last_byte_String. reflexivity.
Qed.

(** Every string is a run of ASCII spaces, a bounded core and a run of
    ASCII spaces. *)
Lemma spaces_core_spaces s :
  exists lead core trail,
    s = String.append lead (String.append core trail) /\
    all_bytes asciiSpace lead = true /\ all_bytes asciiSpace trail = true /\
    bounded core = true.
Proof.
  induction s as [| c s (lead & core & trail & -> & Hlead & Htrail & Hcore)].
  - now exists EmptyString, EmptyString, EmptyString.
  - destruct (asciiSpace c) eqn:Hc.
    + exists (String c lead), core, trail. cbn [all_bytes]. now rewrite Hc, Hlead.
    + destruct core as [| a tl].
      * exists EmptyString, (String c EmptyString), (String.append lead trail).
        rewrite append_empty, all_bytes_app, Hlead, Htrail.
        unfold bounded. cbn [first_byte last_byte]. now rewrite Hc.
      * exists EmptyString, (String c (String.append lead (String a tl))), trail.
        split; [| split; [reflexivity | split; [exact Htrail |]]].
        -- rewrite append_empty, (append_String c), <- append_assoc. reflexivity.
        -- unfold bounded in *. cbn [first_byte] in *.
           rewrite (last_byte_String c), last_byte_app_String.
           destruct (last_byte (String a tl)) as [z |] eqn:Hlast;
             [| now rewrite last_byte_String in Hlast].
           cbn [default from_option id].
           apply andb_true_iff in Hcore as [_ Hz]. now rewrite Hc, Hz.
Qed.

(** X10. When the request has an [X-Forwarded-For] header, the client
    is identified from that header alone, whatever [X-Real-IP] and the
    address of the connection are: by what stands before its first comma,
    trimmed by [strings.TrimSpace]. That first element is some ASCII
    spaces, a core that is empty or neither begins nor ends with an ASCII
    space, and some ASCII spaces. The identifier is the core as it is,
    spaces inside it included, when the core is empty (a blank element)
    or begins and ends with ASCII bytes; where the core begins or ends
    with a byte outside ASCII, the identifier is what the Unicode
    trimming of the library makes of it. *)
Theorem getClientIP_from_forwarded `{ut : UnicodeTrim} (r : Request) :
  XForwardedFor r <> EmptyString ->
  let first := before_sep "," (XForwardedFor r) in
  (forall r', XForwardedFor r' = XForwardedFor r -> getClientIP r' = getClientIP r) /\
  all_bytes (fun c => negb (Ascii.eqb c ",")) first = true /\
  (XForwardedFor r = first \/
   exists rest, XForwardedFor r = String.append first (String "," rest)) /\
  (exists lead core trail,
     first = String.append lead (String.append core trail) /\
     all_bytes asciiSpace lead = true /\ all_bytes asciiSpace trail = true /\
     bounded core = true) /\
  (forall lead core trail,
     first = String.append lead (String.append core trail) ->
     all_bytes asciiSpace lead = true -> all_bytes asciiSpace trail = true ->
     bounded core = true ->
     getClientIP r = trimmed core trail).
Proof.
  intros Hset first.
  assert (Hget : forall r', XForwardedFor r' = XForwardedFor r ->
                            getClientIP r' = TrimSpace first).
  { intros r' Hsame. unfold getClientIP. rewrite Hsame.
    destruct (String.eqb_spec (XForwardedFor r) "") as [Hempty | _]; [congruence |].
    reflexivity. }
  split; [| split; [apply before_sep_free | split; [apply before_sep_split | split]]].
  - intros r' Hsame. now rewrite (Hget r' Hsame), (Hget r eq_refl).
  - apply spaces_core_spaces.
  - intros lead core trail Hfirst Hlead Htrail Hcore.
    rewrite (Hget r eq_refl), Hfirst, TrimSpace_lead by exact Hlead.
    now apply TrimSpace_core.
Qed.

Lemma getClientIP_from_forwarded_witness :
  let ut := {| TrimFunc_IsSpace := id; TrimRightFunc_IsSpace := id |} in
  getClientIP {| XForwardedFor := " 198.51.100.7 , 10.0.0.1";
                 XRealIP := "10.0.0.2"; RemoteAddr := "10.0.0.3:443" |}
    = "198.51.100.7"%string /\
  getClientIP {| XForwardedFor := " , 198.51.100.7";
                 XRealIP := "10.0.0.2"; RemoteAddr := "10.0.0.3:443" |}
    = EmptyString /\
  getClientIP {| XForwardedFor := "a b,c"; XRealIP := ""; RemoteAddr := "" |}
    = "a b"%string.
Proof.
  intros ut. split; [| split].
  - refine (proj2 (proj2 (proj2 (proj2 (getClientIP_from_forwarded
              {| XForwardedFor := " 198.51.100.7 , 10.0.0.1";
                 XRealIP := "10.0.0.2"; RemoteAddr := "10.0.0.3:443" |} _))))
              " "%string "198.51.100.7"%string " "%string
              eq_refl eq_refl eq_refl eq_refl).
    discriminate.
  - refine (proj2 (proj2 (proj2 (proj2 (getClientIP_from_forwarded
              {| XForwardedFor := " , 198.51.100.7";
                 XRealIP := "10.0.0.2"; RemoteAddr := "10.0.0.3:443" |} _))))
              " "%string EmptyString EmptyString
              eq_refl eq_refl eq_refl eq_refl).
    discriminate.
  - refine (proj2 (proj2 (proj2 (proj2 (getClientIP_from_forwarded
              {| XForwardedFor := "a b,c"; XRealIP := ""; RemoteAddr := "" |} _))))
              EmptyString "a b"%string EmptyString
              eq_refl eq_refl eq_refl eq_refl).
    discriminate.
Defined.

(** ** The rate limiter over many requests *)

Lemma handleClick_limiter now req s :
  (handleClick now req s).1 = StatusTooManyRequests <-> Allow now (clientIP req) s = false.
Proof.
  rewrite handleClick_unfold.
  destruct (Allow now (clientIP req) s); [| now split].
  destruct (body req); cbn [fst]; split; discriminate.
Qed.

Lemma handleClick_lastClickIP now req s :
  lastClickIP (handleClick now req s).2 =
  if Allow now (clientIP req) s
  then <[clientIP req := now]> (lastClickIP s) else lastClickIP s.
Proof.
  rewrite handleClick_unfold.
  destruct (Allow now (clientIP req) s); [| reflexivity].
  now destruct (body req).
Qed.

(** X11. The rate limiter knows a client by the result of
    [getClientIP] alone. After a request that was let through, a request
    of any connection that [getClientIP] maps to the same identifier is
    answered 429 for the next 100 ms and changes nothing: thus two
    IPv6 clients whose addresses start with the same group, and that
    send no proxy header, share one limit. *)
Theorem same_identifier_same_limit `{ut : UnicodeTrim}
    (now later : Z) (r1 r2 : Request) (d1 d2 : option ClickPayload) (s : Storage) :
  getClientIP r1 = getClientIP r2 ->
  (handleClick_from now r1 d1 s).1 <> StatusTooManyRequests ->
  later < now + rateLimitTime ->
  handleClick_from later r2 d2 (handleClick_from now r1 d1 s).2
  = (StatusTooManyRequests, (handleClick_from now r1 d1 s).2).
Proof.
  unfold handleClick_from. intros Hsame Hfirst Hlater.
  set (req1 := {| clientIP := getClientIP r1; body := d1 |}) in *.
  assert (Hallowed : Allow now (getClientIP r1) s = true).
  { destruct (Allow now (getClientIP r1) s) eqn:E; [reflexivity |].
    exfalso. apply Hfirst. now apply (handleClick_limiter now req1 s). }
  pose proof (handleClick_lastClickIP now req1 s) as Hlast.
  cbn [clientIP req1] in Hlast. rewrite Hallowed in Hlast.
  rewrite handleClick_unfold. cbn [clientIP]. rewrite <- Hsame.
  unfold Allow at 1. rewrite Hlast, lookup_insert_eq.
  destruct (rateLimitTime <=? later - now) eqn:E; [lia | reflexivity].
Qed.

Lemma same_identifier_same_limit_witness :
  let ut := {| TrimFunc_IsSpace := id; TrimRightFunc_IsSpace := id |} in
  let r1 := {| XForwardedFor := ""; XRealIP := ""; RemoteAddr := "[2001:db8::1]:51234" |} in
  let r2 := {| XForwardedFor := ""; XRealIP := ""; RemoteAddr := "[2001:470::99]:40000" |} in
  let payload := Some {| payload_Country := "Japan"; payload_Clicks := 1 |} in
  let first := handleClick_from 0 r1 payload (initial_storage 0) in
  first.1 = StatusOK /\
  (handleClick_from (50 * Time.Millisecond) r2 payload first.2).1 = StatusTooManyRequests.
Proof.
  intros ut r1 r2 payload first. split; [reflexivity |].
  unfold first.
  rewrite (same_identifier_same_limit 0 (50 * Time.Millisecond) r1 r2 payload payload
             (initial_storage 0)); [reflexivity | reflexivity | discriminate |].
  unfold rateLimitTime, Time.Millisecond. lia.
Defined.

Lemma length_ones n : String.length (ones n) = n.
Proof. induction n as [| n IH]; cbn; congruence. Qed.

Lemma ones_plain n : all_bytes plain (ones n) = true.
Proof. induction n as [| n IH]; cbn [ones all_bytes]; [reflexivity |]. now rewrite IH. Qed.

Lemma append_empty_r s : String.append s EmptyString = s.
Proof. induction s as [| c s IH]; [reflexivity |]. now rewrite append_String, IH. Qed.

Lemma getClientIP_token `{ut : UnicodeTrim} (r : Request) (ip : string) :
  ip <> EmptyString -> all_bytes plain ip = true ->
  XForwardedFor r = ip -> getClientIP r = ip.
Proof.
  intros Hne Hip Hheader. unfold getClientIP. rewrite Hheader.
  destruct (String.eqb_spec ip "") as [-> | _]; [congruence |]. cbn [negb].
  rewrite (proj2 (before_sep_stops "," ip EmptyString (plain_no_comma ip Hip))).
  pose proof (TrimSpace_token EmptyString ip EmptyString Hne Hip eq_refl eq_refl) as Htrim.
  now rewrite append_empty, append_empty_r in Htrim.
Qed.

(** X12. The [X-Forwarded-For] header is taken from the request as it
    is: in every state of the rate limiter, and whatever the address of
    the connection, some value of the header gets a click request past
    the limiter. *)
Theorem some_forwarded_header_passes `{ut : UnicodeTrim}
    (now : Z) (s : Storage) (realIP remoteAddr : string) (decoded : option ClickPayload) :
  exists forwarded,
    (handleClick_from now
       {| XForwardedFor := forwarded; XRealIP := realIP; RemoteAddr := remoteAddr |}
       decoded s).1 <> StatusTooManyRequests.
Proof.
  set (lengths := set_map String.length (dom (lastClickIP s)) ∪ {[0%nat]} : gset nat).
  set (n := fresh lengths).
  assert (Hn : n ∉ lengths) by apply is_fresh.
  exists (ones n). unfold handleClick_from.
  rewrite (getClientIP_token _ (ones n)); [| | apply ones_plain | reflexivity].
  - intros Hlimited. apply handleClick_limiter in Hlimited. cbn [clientIP] in Hlimited.
    unfold Allow in Hlimited.
    destruct (lastClickIP s !! ones n) as [t |] eqn:Hknown; [| discriminate].
    apply Hn, elem_of_union_l, elem_of_map. exists (ones n).
    split; [now rewrite length_ones | apply elem_of_dom; eauto].
  - intros Hempty. apply Hn, elem_of_union_r, elem_of_singleton.
    rewrite <- (length_ones n), Hempty. reflexivity.
Qed.

(** X13. Among the click requests served one after the other, in any
    mix of clients and from any state, those of one client that the
    rate limiter lets through (answered 200 or 400) are at least
    [rateLimitTime] apart from each other, and at least that long after
    the client's timestamp in the initial state: no 100 ms hold two of
    them. *)
Theorem let_through_spaced (ip : string) (reqs : list (Z * ClickRequest)) (s : Storage) :
  StronglySorted (fun t t' => t + rateLimitTime <= t') (let_through ip reqs s) /\
  forall t0, lastClickIP s !! ip = Some t0 ->
    Forall (fun t => t0 + rateLimitTime <= t) (let_through ip reqs s).
Proof.
  revert s. induction reqs as [| [now req] reqs IH]; intros s; cbn [let_through].
  - split; [constructor | intros; constructor].
  - destruct (IH (handleClick now req s).2) as [Hsorted Hafter].
    pose proof (handleClick_lastClickIP now req s) as Hlast.
    pose proof (handleClick_limiter now req s) as Hlimited.
    destruct (String.eqb_spec (clientIP req) ip) as [Hip | Hother]; cbn [andb].
    + destruct (Allow now (clientIP req) s) eqn:Hallow.
      * assert (((handleClick now req s).1 =? StatusTooManyRequests) = false) as ->.
        { apply Z.eqb_neq. intros H. apply Hlimited in H. discriminate H. }
        cbn [negb app]. rewrite Hip in Hlast, Hallow.
        assert (Hrest : Forall (fun t => now + rateLimitTime <= t)
                               (let_through ip reqs (handleClick now req s).2)).
        { apply Hafter. rewrite Hlast. apply lookup_insert_eq. }
        split; [now constructor |].
        intros t0 Ht0. unfold Allow in Hallow. rewrite Ht0 in Hallow.
        assert (t0 + rateLimitTime <= now) by lia.
        constructor; [assumption |].
        eapply Forall_impl; [exact Hrest |]. cbn. intros t Ht.
        unfold rateLimitTime, Time.Millisecond in *. lia.
      * assert (((handleClick now req s).1 =? StatusTooManyRequests) = true) as ->.
        { apply Z.eqb_eq. now apply Hlimited. }
        cbn [negb app]. split; [exact Hsorted |].
        intros t0 Ht0. apply Hafter. now rewrite Hlast.
    + cbn [app]. split; [exact Hsorted |].
      intros t0 Ht0. apply Hafter. rewrite Hlast.
      destruct (Allow now (clientIP req) s); [| exact Ht0].
      now rewrite lookup_insert_ne.
Qed.

(** ** The leaderboard as the browser shows it *)

(** X14. The browser takes the first item named "Worldwide" as the
    total and lists the items with another name. On the leaderboard of
    the backend the total it shows is therefore always the row of the
    total, and the list holds, in descending order of count, exactly the
    countries of the store other than a country named "Worldwide": such
    a country is counted in the total and never listed. *)
Theorem browser_split `{rt : Runtime} (now : Z) (s : Storage) :
  let data := getLeaderboard now s in
  (exists worldwide,
     worldwideData data = Some worldwide /\ head data = Some worldwide /\
     Clicks worldwide = Int64.wrap (sum_clicks (countryClicks s))) /\
  (forall item,
     item ∈ leaderboardData data <->
     countryClicks s !! Country item = Some (Clicks item) /\
     KPS item = PrimFloat.zero /\
     Country item <> "Worldwide"%string) /\
  StronglySorted (fun a b => Clicks b <= Clicks a) (leaderboardData data) /\
  length (leaderboardData data) =
    (size (countryClicks s)
     - match countryClicks s !! "Worldwide"%string with Some _ => 1 | None => 0 end)%nat.
Proof.
  cbn zeta.
  destruct (getLeaderboard_rows now s) as (rows & -> & Hperm & Hsorted).
  assert (Hlisted : leaderboardData
            ({| Country := "Worldwide";
                Clicks := Int64.wrap (sum_clicks (countryClicks s));
                KPS := worldwide_kps now s (Int64.wrap (sum_clicks (countryClicks s))) |}
             :: rows)
          = List.filter (fun item => negb (is_Worldwide item)) rows) by reflexivity.
  rewrite Hlisted. split; [| split; [| split]].
  - eexists. repeat split.
  - intros item. rewrite list_elem_of_In, filter_In, <- list_elem_of_In.
    rewrite (elem_of_country_rows (countryClicks s) rows item Hperm).
    unfold is_Worldwide. rewrite negb_true_iff, String.eqb_neq. tauto.
  - clear Hperm Hlisted. induction Hsorted as [| a l Hl IH Ha]; cbn [List.filter].
    + constructor.
    + destruct (negb (is_Worldwide a)); [| exact IH].
      constructor; [exact IH |].
      rewrite Forall_forall in Ha |- *. intros b Hb.
      apply Ha. apply list_elem_of_In in Hb. apply filter_In in Hb as [Hb _].
      now apply list_elem_of_In.
  - assert (Hnodup : NoDup (map Country rows))
      by now apply (NoDup_country_rows (countryClicks s)).
    assert (Hlen : length rows = size (countryClicks s))
      by now rewrite Hperm, length_map, length_map_to_list.
    assert (Hmem : forall item, item ∈ rows ->
              countryClicks s !! Country item = Some (Clicks item))
      by (intros item Hin; now apply (elem_of_country_rows (countryClicks s) rows item Hperm)).
    assert (Hin : forall n, countryClicks s !! "Worldwide"%string = Some n ->
              "Worldwide"%string ∈ map Country rows).
    { intros n Hn. apply list_elem_of_fmap. exists (country_row ("Worldwide"%string, n)).
      split; [reflexivity |].
      now apply (elem_of_country_rows (countryClicks s) rows _ Hperm). }
    rewrite <- Hlen. clear Hperm Hsorted Hlisted Hlen.
    assert (Hcount : forall l, NoDup (map Country l) ->
      length (List.filter (fun item => negb (is_Worldwide item)) l) =
      (length l - if decide ("Worldwide"%string ∈ map Country l) then 1 else 0)%nat).
    { induction l as [| a l IH]; cbn [List.filter map length]; [reflexivity |].
      intros [Hnotin Hl]%NoDup_cons. specialize (IH Hl).
      unfold is_Worldwide at 1.
      destruct (String.eqb_spec (Country a) "Worldwide") as [Ha | Ha]; cbn [negb length].
      - rewrite decide_True by (rewrite Ha; apply list_elem_of_here).
        rewrite IH, decide_False by now rewrite <- Ha. lia.
      - rewrite IH. destruct (decide (_ ∈ map Country l)) as [Hin' | Hnin].
        + rewrite decide_True by now apply list_elem_of_further.
          destruct l; [now apply elem_of_nil in Hin' | cbn [length]; lia].
        + rewrite decide_False; [lia |].
          intros [Heq | Hin']%elem_of_cons; congruence. }
    rewrite (Hcount rows Hnodup).
    destruct (countryClicks s !! "Worldwide"%string) as [n |] eqn:Hw.
    + rewrite decide_True; [reflexivity | eapply Hin; reflexivity].
    + rewrite decide_False; [reflexivity |].
      intros [item [Hname Hitem]]%list_elem_of_fmap.
      apply Hmem in Hitem. rewrite <- Hname, Hw in Hitem. discriminate Hitem.
Qed.

(** ** Clicks and the total *)

Lemma sum_clicks_insert_fresh (m : gmap string Z) country n :
  m !! country = None -> sum_clicks (<[country := n]> m) = n + sum_clicks m.
Proof.
  intros Hfresh. unfold sum_clicks.
  rewrite (sum_list_Z_perm _ (map snd ((country, n) :: map_to_list m))).
  - reflexivity.
  - apply Permutation_map. now apply map_to_list_insert.
Qed.

Lemma sum_clicks_insert (m : gmap string Z) country n :
  sum_clicks (<[country := n]> m) = sum_clicks m - default 0 (m !! country) + n.
Proof.
  destruct (m !! country) as [old |] eqn:Hold; cbn.
  - rewrite <- (insert_delete_eq m country n).
    rewrite <- (insert_delete_id m country old Hold) at 2.
    rewrite !sum_clicks_insert_fresh by apply lookup_delete_eq. lia.
  - rewrite sum_clicks_insert_fresh by exact Hold. lia.
Qed.

(** X15. A click request answered 200 raises the sum of all counters
    by the clicks it is counted for, between 1 and 10, as long as the
    counter of its country stays an int64; a request answered 400 or 429
    leaves every counter as it is. *)
Theorem click_raises_total (now : Z) (req : ClickRequest) (s : Storage) :
  store_int64 s ->
  click_fits (OpClick now req) s ->
  let out := handleClick now req s in
  (out.1 <> StatusOK -> countryClicks out.2 = countryClicks s) /\
  (out.1 = StatusOK ->
     exists payload,
       body req = Some payload /\
       sum_clicks (countryClicks out.2) =
         sum_clicks (countryClicks s) + Z.max 1 (Z.min 10 (payload_Clicks payload)) /\
       1 <= sum_clicks (countryClicks out.2) - sum_clicks (countryClicks s) <= 10).
Proof.
  intros Hint Hfits. cbn zeta. rewrite handleClick_unfold.
  destruct (Allow now (clientIP req) s); cbn [fst snd].
  2: { split; [reflexivity | discriminate]. }
  destruct (body req) as [payload |] eqn:Hbody; cbn [fst snd].
  2: { split; [reflexivity | discriminate]. }
  split; [congruence |]. intros _. exists payload. split; [reflexivity |].
  specialize (Hfits payload Hbody). rewrite validate_Clicks_clamp in Hfits |- *.
  set (country := validate_Country (payload_Country payload)) in *.
  set (delta := Z.max 1 (Z.min 10 (payload_Clicks payload))) in *.
  cbn [incrementClicks countryClicks record_click].
  rewrite sum_clicks_insert. fold (count_of s country).
  pose proof (count_of_in_range s country Hint) as Hcount.
  assert (Int64.add (count_of s country) delta = count_of s country + delta) as ->.
  { apply wrap_id. int64_bounds. subst delta. lia. }
  subst delta. lia.
Qed.

Lemma click_raises_total_witness :
  let s := incrementClicks "Peru" 2 (incrementClicks "Japan" 3 (initial_storage 0)) in
  let req := {| clientIP := "10.0.0.7";
                body := Some {| payload_Country := "Japan"; payload_Clicks := 15 |} |} in
  sum_clicks (countryClicks s) = 5 /\
  sum_clicks (countryClicks (handleClick 1000 req s).2) = 15.
Proof.
  intros s req.
  assert (Hsum : sum_clicks (countryClicks s) = 5) by reflexivity.
  split; [exact Hsum |].
  assert (Hint : store_int64 s).
  { unfold s. apply incrementClicks_int64, incrementClicks_int64, initial_storage_int64. }
  assert (Hfits : click_fits (OpClick 1000 req) s).
  { intros payload [= <-]. discriminate. }
  destruct (click_raises_total 1000 req s Hint Hfits) as [_ Hraised].
  destruct (Hraised eq_refl) as (payload & Hbody & Htotal & _).
  rewrite Htotal, Hsum. injection Hbody as <-. reflexivity.
Defined.

(** ** What the order of the map and the ties of the sort can change *)

Lemma sorted_counts_unique (l l' : list Z) :
  l ≡ₚ l' ->
  StronglySorted (fun a b => b <= a) l -> StronglySorted (fun a b => b <= a) l' ->
  l = l'.
Proof.
  intros Hperm Hl. revert l' Hperm.
  induction Hl as [| a l Hl IH Ha]; intros l' Hperm Hl'.
  - now apply Permutation_nil in Hperm.
  - destruct l' as [| b l'];
      [now apply Permutation_sym, Permutation_nil in Hperm |].
    apply StronglySorted_inv in Hl' as [Hl' Hb].
    rewrite Forall_forall in Ha, Hb.
    assert (a = b) as <-.
    { assert (Hina : a ∈ b :: l') by (rewrite <- Hperm; apply list_elem_of_here).
      assert (Hinb : b ∈ a :: l) by (rewrite Hperm; apply list_elem_of_here).
      apply elem_of_cons in Hina as [-> | Hina]; [reflexivity |].
      apply elem_of_cons in Hinb as [-> | Hinb]; [reflexivity |].
      specialize (Ha b Hinb). specialize (Hb a Hina). lia. }
    f_equal. apply IH; [| exact Hl'].
    now apply Permutation_cons_inv in Hperm.
Qed.

Lemma sorted_map_Clicks rows :
  StronglySorted (fun a b => Clicks b <= Clicks a) rows ->
  StronglySorted (fun a b => b <= a) (map Clicks rows).
Proof.
  induction 1 as [| a l Hl IH Ha]; cbn [map]; constructor; [exact IH |].
  now apply Forall_fmap.
Qed.

(** X16. The order in which Go walks the map and the way the sort
    places equal counts can change nothing but the order of countries
    that have the same count: two runs of [getLeaderboard] on the same
    store at the same time give the same row of the total, the same
    rows up to their order, and the same sequence of counts. *)
Theorem leaderboard_up_to_ties (rt1 rt2 : Runtime) (now : Z) (s : Storage) :
  head (getLeaderboard (rt := rt1) now s) = head (getLeaderboard (rt := rt2) now s) /\
  getLeaderboard (rt := rt1) now s ≡ₚ getLeaderboard (rt := rt2) now s /\
  map Clicks (getLeaderboard (rt := rt1) now s)
  = map Clicks (getLeaderboard (rt := rt2) now s).
Proof.
  destruct (getLeaderboard_rows (rt := rt1) now s) as (rows1 & -> & Hperm1 & Hsorted1).
  destruct (getLeaderboard_rows (rt := rt2) now s) as (rows2 & -> & Hperm2 & Hsorted2).
  assert (Hperm : rows1 ≡ₚ rows2) by now rewrite Hperm1, Hperm2.
  split; [reflexivity | split].
  - now apply Permutation_skip.
  - cbn [map]. f_equal.
    apply sorted_counts_unique; [now apply Permutation_map | |];
      now apply sorted_map_Clicks.
Qed.

(** ** The map of the rate limiter *)

(** X17. The rate limiter never forgets a client: along any sequence
    of critical sections no identifier leaves [lastClickIP], and every
    check of an identifier that is not yet in it is let through and adds
    it, so the map grows by one entry for each new identifier. *)
Theorem limiter_never_forgets `{rt : Runtime}
    (cs : list critical) (s : Storage) (r : Redis) (now : Z) (ip : string) :
  dom (lastClickIP s) ⊆ dom (lastClickIP (run cs (s, r)).1) /\
  (lastClickIP s !! ip = None ->
     (checkRateLimit now ip s).1 = true /\
     size (lastClickIP (checkRateLimit now ip s).2) = S (size (lastClickIP s))).
Proof.
  split.
  - now destruct (run_keeps cs (s, r)) as (_ & _ & Hdom & _).
  - intros Hnew. rewrite checkRateLimit_Allow. unfold Allow. rewrite Hnew.
    cbn [fst snd record_click lastClickIP]. split; [reflexivity |].
    now apply map_size_insert_None.
Qed.

Lemma limiter_never_forgets_witness :
  let s := (checkRateLimit 0 "10.0.0.7" (initial_storage 0)).2 in
  size (lastClickIP (checkRateLimit 5 "10.0.0.8" s).2) = 2%nat.
Proof.
  intros s.
  destruct (limiter_never_forgets (rt := reference_runtime) [] s empty_redis 5 "10.0.0.8")
    as [_ Hgrow].
  destruct (Hgrow eq_refl) as [_ Hsize]. rewrite Hsize. reflexivity.
Defined.
